(** * Token reduction in [models/evit.py]: a shallow embedding

    The development follows the order of the Python module:
    [complement_idx], [Block] (its constructor check and [forward], which holds
    the scorer, the top-k selection, the fusion and the reassembly), and
    [EViT] (the schedule built by [__init__] and the stage loop of [forward]
    with its cross-layer cache).

    Conventions.
    - One batch element is modelled: every tensor operation of the source acts
      on each batch row independently.  A sequence [B, N, C] is a list of [N]
      tokens, a token is a list of [C] scalars, an attention map [B, H, N, N]
      is a list of [H] heads, each a list of rows.
    - Tensor scalars are kept abstract (class [Scalar]); the configured keep
      rates are binary64 floats, as in Python, so that [math.ceil] of the
      product is computed as the interpreter computes it.
    - Token indices are natural numbers; the selection trace, which carries a
      [-1] sentinel, is a list of integers.
    - Python exceptions are values of [error]; a computation that may raise
      has type [result A].
    - The learned sublayers (attention, normalisation, MLP, embeddings, head)
      are parameters of the model.  The dictionaries of the visualisation
      mode do not feed back into the sequence and are left out; the list of
      class tokens collected for the feature-fusion head does not either and
      is modelled beside the stage loop ([stages_cls]). *)

From Stdlib Require Import ZArith Floats QArith Lia.
From stdpp Require Import base list sorting.

Local Open Scope Z_scope.

(** ** Exceptions *)

Inductive error : Set :=
  | AssertionError
  | IndexError
  | RuntimeError
  | UnboundLocalError
  | ValueError
  | OverflowError.

Inductive result (A : Type) : Type :=
  | Ok (a : A)
  | Raise (e : error).
Arguments Ok {A} a.
Arguments Raise {A} e.

#[global] Instance result_ret : MRet result := λ A a, Ok a.
#[global] Instance result_bind : MBind result := λ A B f m,
  match m with
  | Ok a => f a
  | Raise e => Raise e
  end.

Definition py_assert (b : bool) : result unit :=
  if b then Ok () else Raise AssertionError.

Definition is_error {A} (m : result A) : Prop :=
  match m with
  | Ok _ => False
  | Raise _ => True
  end.

(** ** [complement_idx] (lines 60-81) *)

(** [torch.scatter(a, -1, idx, 0)] on one row: position [i] of [a] is
    overwritten for every [i] of [idx]; an index outside the row raises. *)
Fixpoint scatter (a : list nat) (idx : list nat) (v : nat) : result (list nat) :=
  match idx with
  | [] => Ok a
  | i :: idx' =>
      if decide (i < length a)%nat then scatter (<[i:=v]> a) idx' v
      else Raise RuntimeError
  end.

(** [torch.sort(masked, dim=-1, descending=False)], values only. *)
Definition sort_ascending (l : list nat) : list nat := merge_sort (≤)%nat l.

(** One row of the trailing dimension: [a = arange(dim)], the kept positions
    are zeroed, the row is sorted and its first [n_idx] entries are cut. *)
Definition complement_idx_row (idx : list nat) (dim : nat) : result (list nat) :=
  let a := seq 0 dim in
  let n_idx := length idx in
  masked ← scatter a idx 0%nat;
  let compl := sort_ascending masked in
  Ok (drop n_idx compl).

(** The index tensor [B, K]: the leading dimension is batched, and the two
    [permute] calls only move the sorted axis to the front for the slice
    [compl[n_idx:]] and back. *)
Definition complement_idx (idx : list (list nat)) (dim : nat) : result (list (list nat)) :=
  mapM (λ row, complement_idx_row row dim) idx.

(** The value that the row holds at position [j] after the scatter. *)
Definition zero_kept (idx : list nat) (j : nat) : nat :=
  if decide (j ∈ idx) then 0%nat else j.

(** The set complement of [idx] in [{0, ..., dim-1}], in ascending order. *)
Definition ascending_complement (idx : list nat) (dim : nat) : list nat :=
  filter (λ j, j ∉ idx) (seq 0 dim).

(** ** Tensor scalars and elementwise operations *)

(** The element type of the token and attention tensors.  [rdiv_count] divides
    by an element count (used by the means) and [rlt] is the comparison used
    by the top-k selection. *)
Class Scalar (R : Type) := {
  rzero : R;
  radd : R → R → R;
  rmul : R → R → R;
  rdiv_count : R → nat → R;
  rlt : R → R → bool;
}.

#[global] Instance Z_scalar : Scalar Z := {|
  rzero := 0;
  radd := Z.add;
  rmul := Z.mul;
  rdiv_count := λ z n, z / Z.of_nat n;
  rlt := Z.ltb;
|}.

#[global] Instance Q_scalar : Scalar Q := {|
  rzero := 0%Q;
  radd := Qplus;
  rmul := Qmult;
  rdiv_count := λ q n, (q / inject_Z (Z.of_nat n))%Q;
  rlt := λ p q, negb (Qle_bool q p);
|}.

(** The comparison of scores is a strict weak order: it is asymmetric, and
    "not smaller than" is transitive. *)
Class ScoreOrder (R : Type) `{Scalar R} : Prop := {
  rlt_asym : ∀ a b : R, rlt a b = true → rlt b a = false;
  rlt_negtrans : ∀ a b c : R, rlt a b = false → rlt b c = false → rlt a c = false;
}.

Section Tensors.
Context {R : Type} `{Scalar R}.

(** [u + v] on two vectors of the same length. *)
Definition vadd (u v : list R) : list R := zip_with radd u v.

(** [t * s]: a token scaled by a score broadcast over its channels. *)
Definition vscale (t : list R) (s : R) : list R := (λ v, rmul v s) <$> t.

(** [torch.sum(rows, dim)] over the leading axis of a [D, C] tensor. *)
Definition vsum (C : nat) (rows : list (list R)) : list R :=
  foldl vadd (replicate C rzero) rows.

(** [rows.mean(dim)] over the leading axis of a [D, C] tensor. *)
Definition vmean (C : nat) (rows : list (list R)) : list R :=
  (λ v, rdiv_count v (length rows)) <$> vsum C rows.

(** [x + y] on two [N, C] sequences. *)
Definition tadd (x y : list (list R)) : list (list R) := zip_with vadd x y.

(** [C] of [B, N, C = x.shape]. *)
Definition channels (x : list (list R)) : nat :=
  match x with
  | [] => 0%nat
  | t :: _ => length t
  end.

(** [torch.gather(src, dim=1, index)] along the token axis: the entry at
    each listed position; a position outside [src] raises. *)
Definition gather {A} (src : list A) (index : list nat) : result (list A) :=
  mapM (λ i, match src !! i with
             | Some a => Ok a
             | None => Raise RuntimeError
             end) index.

(** [attn[:, :, 0, 1:]] for one head: the row of the first token as query,
    restricted to the other columns. *)
Definition cls_row (head : list (list R)) : result (list R) :=
  match head !! 0%nat with
  | Some row => Ok (drop 1 row)
  | None => Raise IndexError
  end.

(** The scorer (lines 209-210): the class-token row of every head, and
    [.mean(dim=1)] over the heads.  [N - 1] is the width of these rows, the
    attention map having the shape of the sequence. *)
Definition cls_attention (attn : list (list (list R))) (N : nat) : result (list R) :=
  rows ← mapM cls_row attn;
  Ok (vmean (N - 1) rows).

(** Modelled from the spec: the stable descending sort behind the top-k
    selection of section 4.2 ("equal scores keep original relative order"),
    as an insertion sort.  A new entry passes the entries that are strictly
    larger and stops in front of the first entry that is not. *)
Fixpoint insert_desc (p : nat * R) (l : list (nat * R)) : list (nat * R) :=
  match l with
  | [] => [p]
  | q :: l' => if rlt p.2 q.2 then q :: insert_desc p l' else p :: q :: l'
  end.

(** Modelled from the spec: the entries are inserted from the last to the
    first, so that of two equal scores the earlier position stays in front. *)
Definition sort_desc_stable (l : list (nat * R)) : list (nat * R) :=
  foldr insert_desc [] l.

(** Modelled from the spec: the positions of [scores] in the order of the
    stable descending sort. *)
Definition ranking (scores : list R) : list nat :=
  (sort_desc_stable (zip (seq 0 (length scores)) scores)).*1.

(** Modelled from the spec: [torch.topk(scores, k, dim=1, largest=True,
    sorted=True)] is a primitive of the tensor library and is not part of
    the repository.  Following section 4.2 it is a stable descending sort
    of the positions by score ([ranking]) of which the first [k] are
    returned; [k] larger than the number of scores raises. *)
Definition topk (scores : list R) (k : nat) : result (list nat) :=
  if decide (k ≤ length scores)%nat
  then Ok (take k (ranking scores))
  else Raise RuntimeError.

(** The order of two indexed scores in a stable descending sort. *)
Definition entry_before (p q : nat * R) : Prop :=
  rlt q.2 p.2 = true ∨ (rlt p.2 q.2 = false ∧ (p.1 < q.1)%nat).

(** Descending rank with the stable tie-break: position [i] comes before
    position [j] when its score is strictly larger, or when neither score
    is smaller than the other and [i] is the earlier position. *)
Definition rank_before (scores : list R) (i j : nat) : Prop :=
  match scores !! i, scores !! j with
  | Some si, Some sj => rlt sj si = true ∨ (rlt si sj = false ∧ (i < j)%nat)
  | _, _ => False
  end.

End Tensors.

(** ** [math.ceil(keep_rate * (N - 1))] *)

(** Conversion of a Python [int] to [float]; exact up to [2^53] in absolute
    value, which covers every sequence length. *)
Definition float_of_int (z : Z) : float :=
  if z <? 0 then (- of_uint63 (Uint63.of_Z (- z)))%float
  else of_uint63 (Uint63.of_Z z).

(** [math.ceil] on a binary64 value, read off its sign, mantissa and
    exponent; it raises on a NaN and on an infinity. *)
Definition math_ceil (f : float) : result Z :=
  match Prim2SF f with
  | S754_zero _ => Ok 0
  | S754_finite s m e =>
      let v := if s then Z.neg m else Z.pos m in
      Ok (if 0 <=? e then v * 2 ^ e else - ((- v) / 2 ^ (- e)))
  | S754_infinity _ => Raise OverflowError
  | S754_nan => Raise ValueError
  end.

(** Line 206. *)
Definition left_tokens (keep_rate : float) (N : Z) : result Z :=
  math_ceil (keep_rate * float_of_int (N - 1))%float.

(** ** [Block] (lines 147-234) *)

Module Block.

(** A block is its keep rate and its two residual branches.  The branches
    hold the learned sublayers and stay abstract: [attn_branch x] stands for
    [tmp, attn = self.attn(self.norm1(x))] followed by
    [self.drop_path1(self.ls1(tmp))], and [mlp_branch x] for
    [self.drop_path2(self.ls2(self.mlp(self.norm2(x))))]. *)
Record t (R : Type) := mk {
  keep_rate : float;
  attn_branch : list (list R) → list (list R) * list (list (list R));
  mlp_branch : list (list R) → list (list R);
}.
Arguments mk {R} _ _ _.
Arguments keep_rate {R} _.
Arguments attn_branch {R} _ _.
Arguments mlp_branch {R} _ _.

(** The local variables [index], [idx] and [compl] when control leaves the
    conditional of lines 205-227.  [Reduced]: the inner branch ran and bound
    the three of them.  [NotBound]: [keep_rate < 1] and
    [left_tokens == N - 1], no assignment to [index] was executed.
    [IndexNone]: the [else] branch ran, [index = None]. *)
Inductive locals : Type :=
  | Reduced (index : list nat) (idx : list Z) (compl : list nat)
  | NotBound
  | IndexNone.

(** Line 190: [0 < keep_rate <= 1]. *)
Definition valid_rate (keep_rate : float) : bool :=
  ((0 <? keep_rate) && (keep_rate <=? 1))%float.

Section Forward.
Context {R : Type} `{Scalar R}.

(** Lines 189-190 of the constructor. *)
Definition __init__ (keep_rate : float)
    (attn_branch : list (list R) → list (list R) * list (list (list R)))
    (mlp_branch : list (list R) → list (list R)) : result (t R) :=
  _ ← py_assert (valid_rate keep_rate);
  Ok (mk keep_rate attn_branch mlp_branch).

(** Line 222: the discarded tokens, each scaled by its score, summed over
    the discarded positions. *)
Definition fuse (C : nat) (non_topk : list (list R)) (non_topk_attn : list R) : list R :=
  vsum C (zip_with vscale non_topk non_topk_attn).

(** Line 225: the kept indices followed by the [-1] entry. *)
Definition selection_trace (idx : list nat) : list Z :=
  (Z.of_nat <$> idx) ++ [-1].

(** Lines 205-227: the reduction between the two residual branches.  [N]
    and [C] are those of [B, N, C = x.shape] at the head of [forward];
    [x] is the sequence after the attention residual. *)
Definition reduce (keep_rate : float) (N C : nat)
    (x : list (list R)) (attn : list (list (list R)))
    : result (list (list R) * locals) :=
  if (keep_rate <? 1)%float then
    left ← left_tokens keep_rate (Z.of_nat N);
    if decide (left ≠ Z.of_nat N - 1) then
      _ ← py_assert (1 <=? left);
      cls_attn ← cls_attention attn N;
      idx ← topk cls_attn (Z.to_nat left);
      let non_cls := drop 1 x in
      x_others ← gather non_cls idx;
      compl ← complement_idx_row idx (N - 1);
      non_topk ← gather non_cls compl;
      non_topk_attn ← gather cls_attn compl;
      let extra_token := fuse C non_topk non_topk_attn in
      let x := take 1 x ++ x_others ++ [extra_token] in
      Ok (x, Reduced idx (selection_trace idx) compl)
    else Ok (x, NotBound)
  else Ok (x, IndexNone).

(** Lines 205-227 with the selector as a parameter: [selector scores k]
    stands for [torch.topk(scores, k, dim=1, largest=True, sorted=True)[1]],
    a primitive of the tensor library.  [reduce] is this step at the
    selector [topk]. *)
Definition reduce_with (selector : list R → nat → result (list nat))
    (keep_rate : float) (N C : nat)
    (x : list (list R)) (attn : list (list (list R)))
    : result (list (list R) * locals) :=
  if (keep_rate <? 1)%float then
    left ← left_tokens keep_rate (Z.of_nat N);
    if decide (left ≠ Z.of_nat N - 1) then
      _ ← py_assert (1 <=? left);
      cls_attn ← cls_attention attn N;
      idx ← selector cls_attn (Z.to_nat left);
      let non_cls := drop 1 x in
      x_others ← gather non_cls idx;
      compl ← complement_idx_row idx (N - 1);
      non_topk ← gather non_cls compl;
      non_topk_attn ← gather cls_attn compl;
      let extra_token := fuse C non_topk non_topk_attn in
      let x := take 1 x ++ x_others ++ [extra_token] in
      Ok (x, Reduced idx (selection_trace idx) compl)
    else Ok (x, NotBound)
  else Ok (x, IndexNone).

(** Lines 192-234. *)
Definition forward (blk : t R) (x : list (list R))
    : result (list (list R) * Z * option (list Z) * option (list nat)) :=
  let N := length x in
  let C := channels x in
  let '(tmp, attn) := attn_branch blk x in
  let x := tadd x tmp in
  '(x, vars) ← reduce (keep_rate blk) N C x attn;
  let x := tadd x (mlp_branch blk x) in
  let n_tokens := Z.of_nat (length x) - 1 in
  match vars with
  | Reduced _ idx compl => Ok (x, n_tokens, Some idx, Some compl)
  | NotBound => Raise UnboundLocalError
  | IndexNone => Ok (x, n_tokens, None, None)
  end.

End Forward.
End Block.

(** ** [EViT] (lines 237-699) *)

(** [l[i] = v] on a Python list: a negative index counts from the end, an
    index outside [-len, len) raises. *)
Definition list_setitem {A} (l : list A) (i : Z) (v : A) : result (list A) :=
  let n := Z.of_nat (length l) in
  if decide (0 ≤ i < n) then Ok (<[Z.to_nat i := v]> l)
  else if decide (- n ≤ i < 0) then Ok (<[Z.to_nat (i + n) := v]> l)
  else Raise IndexError.

(** The tensor library is not part of the repository.  What the stage loop
    relies on and the source does not determine is a parameter of the model:
    the class of the exception that [torch.cat] raises when it is given an
    empty list of tensors. *)
Class TensorLibrary := {
  cat_empty_error : error;
}.

(** [torch.cat(tensors, dim=1)]: an empty list of tensors raises, with the
    exception of the library. *)
Definition torch_cat `{TensorLibrary} {A} (tensors : list (list A)) : result (list A) :=
  match tensors with
  | [] => Raise cat_empty_error
  | _ => Ok (concat tensors)
  end.

(** [x[:, -k:]]: the last [k] tokens, and the whole sequence for [k = 0]. *)
Definition tail_slice {A} (x : list A) (k : nat) : list A :=
  match k with
  | O => x
  | _ => drop (length x - k) x
  end.

Module EViT.

(** The fields of [args] that the reduction schedule and the cross-layer
    cache read, with the defaults of the [getattr] calls. *)
Record args := mk_args {
  arg_keep_rate : list float;
  arg_reduction_loc : list Z;
  arg_clc : bool;
  arg_clc_include_gap : bool;
  arg_clc_pool_cls : bool;
  arg_clc_pool_clr : bool;
  arg_clc_recover_at_last : bool;
  arg_num_clr : Z;
}.

Definition default_args : args :=
  mk_args [0x1.ccccccccccccdp-1%float] [9] false false false false false 0.

(** The attributes of the model that the stage loop reads.  [clr] is
    [Some num_clr] once [add_clr] has created the carrier tokens; [None]
    stands for [hasattr(self, 'clr')] being false. *)
Record t (R : Type) := mk {
  blocks : list (Block.t R);
  reduction_loc : list Z;
  token_ratio : list float;
  recovery_layers : list Z;
  clc : bool;
  clc_include_gap : bool;
  clc_pool_cls : bool;
  clc_pool_clr : bool;
  clr : option nat;
}.
Arguments mk {R} _ _ _ _ _ _ _ _ _.
Arguments blocks {R} _.
Arguments reduction_loc {R} _.
Arguments token_ratio {R} _.
Arguments recovery_layers {R} _.
Arguments clc {R} _.
Arguments clc_include_gap {R} _.
Arguments clc_pool_cls {R} _.
Arguments clc_pool_clr {R} _.
Arguments clr {R} _.

(** Lines 330-332: a single rate is repeated for every reduction location. *)
Definition broadcast_ratio (token_ratio : list float) (reduction_loc : list Z) : list float :=
  match token_ratio with
  | [r] => replicate (length reduction_loc) r
  | _ => token_ratio
  end.

(** Lines 338-339: the loop over [enumerate(reduction_loc)]. *)
Fixpoint assign_ratios (full : list float) (schedule : list (Z * float)) : result (list float) :=
  match schedule with
  | [] => Ok full
  | (loc, r) :: schedule' =>
      full' ← list_setitem full loc r;
      assign_ratios full' schedule'
  end.

(** Lines 337-339. *)
Definition token_ratio_full (depth : nat) (reduction_loc : list Z) (token_ratio : list float)
    : result (list float) :=
  assign_ratios (replicate depth 1%float) (zip reduction_loc token_ratio).

Section Model.
Context {R : Type} `{Scalar R} `{TensorLibrary}.

(** The reduction and cache part of the constructor (lines 326-342 and
    408-421).  [sublayers i] gives the two residual branches of block [i];
    the blocks are built in order (lines 376-392), each running the check of
    [Block.__init__] on its rate. *)
Definition __init__ (depth : nat)
    (sublayers : nat → (list (list R) → list (list R) * list (list (list R)))
                       * (list (list R) → list (list R)))
    (a : args) : result (t R) :=
  let token_ratio := broadcast_ratio (arg_keep_rate a) (arg_reduction_loc a) in
  let reduction_loc := arg_reduction_loc a in
  _ ← py_assert (bool_decide (length token_ratio = length reduction_loc));
  full ← token_ratio_full depth reduction_loc token_ratio;
  blocks ← mapM (λ ir : nat * float,
                   Block.__init__ ir.2 (sublayers ir.1).1 (sublayers ir.1).2)
                (zip (seq 0 depth) full);
  let recovery_layers :=
    if arg_clc_recover_at_last a then reduction_loc ++ [Z.of_nat depth - 2]
    else reduction_loc in
  _ ← (if arg_clc a
       then py_assert (bool_decide (arg_num_clr a ≠ 0) || arg_clc_include_gap a)
       else Ok ());
  Ok (mk blocks reduction_loc token_ratio recovery_layers
         (arg_clc a) (arg_clc_include_gap a) (arg_clc_pool_cls a)
         (arg_clc_pool_clr a) None).

(** Lines 507-511 of [add_clr]: the carrier tokens exist from then on. *)
Definition add_clr (m : t R) (num_clr : Z) : t R :=
  if 0 <? num_clr
  then mk (blocks m) (reduction_loc m) (token_ratio m) (recovery_layers m)
          (clc m) (clc_include_gap m) (clc_pool_cls m) (clc_pool_clr m)
          (Some (Z.to_nat num_clr))
  else m.

(** The variables the stage loop of [forward] carries from one iteration to
    the next. *)
Record state := mk_state {
  x : list (list R);
  cross_layer_cache : list (list (list R));
  curr_num_pool : nat;
}.

(** Lines 631-635. *)
Definition initial_state (m : t R) (x : list (list R)) : state :=
  mk_state x []
    (match clr m with
     | Some num_clr => if clc_pool_clr m then length x else (length x - num_clr)%nat
     | None => length x
     end).

(** Lines 649-653: the recovery at a stage listed in [recovery_layers]. *)
Definition recover (m : t R) (i : Z) (st : state) : result state :=
  if clc m && bool_decide (i ∈ recovery_layers m) then
    prev_feats ← torch_cat (cross_layer_cache st);
    Ok (mk_state (x st ++ prev_feats) [] (length (x st)))
  else Ok st.

(** Lines 657-671: the carrier entry of the current stage. *)
Definition carriers (m : t R) (st : state) : result (list (list R)) :=
  let gap :=
    if clc_include_gap m then
      let feats_to_pool :=
        if clc_pool_cls m then take (curr_num_pool st) (x st)
        else drop 1 (take (curr_num_pool st) (x st)) in
      [[vmean (channels (x st)) feats_to_pool]]
    else [] in
  let carried :=
    match clr m with
    | Some num_clr => [tail_slice (x st) num_clr]
    | None => []
    end in
  torch_cat (gap ++ carried).

(** Lines 656-672: the accumulation, at every stage strictly before the last
    entry of [recovery_layers]. *)
Definition accumulate (m : t R) (i : Z) (st : state) : result state :=
  if clc m then
    match last (recovery_layers m) with
    | None => Raise IndexError
    | Some final =>
        if i <? final then
          cross_layer_carriers ← carriers m st;
          Ok (mk_state (x st) (cross_layer_cache st ++ [cross_layer_carriers])
                       (curr_num_pool st))
        else Ok st
    end
  else Ok st.

(** Lines 648-672: the cache part of one iteration, on the output of the
    block. *)
Definition cache_step (m : t R) (i : Z) (st : state) : result state :=
  st1 ← recover m i st;
  accumulate m i st1.

(** One iteration of the loop of lines 637-676: the block, then the recovery
    and the accumulation. *)
Definition stage (m : t R) (i : Z) (blk : Block.t R) (st : state) : result state :=
  '(x', _, _, _) ← Block.forward blk (x st);
  cache_step m i (mk_state x' (cross_layer_cache st) (curr_num_pool st)).

(** The loop itself, from stage [i] on; the result lists the state at the
    end of every stage. *)
Fixpoint stages (m : t R) (i : Z) (blks : list (Block.t R)) (st : state)
    : result (list state) :=
  match blks with
  | [] => Ok []
  | blk :: blks' =>
      st' ← stage m i blk st;
      rest ← stages m (i + 1) blks' st';
      Ok (st' :: rest)
  end.

(** Lines 631-676 of [forward], on the embedded sequence [x]. *)
Definition forward_stages (m : t R) (x : list (list R)) : result (list state) :=
  stages m 0 (blocks m) (initial_state m x).

End Model.
Arguments state R : clear implicits.
Arguments mk_state {R} _ _ _.
Arguments x {R} _.
Arguments cross_layer_cache {R} _.
Arguments curr_num_pool {R} _.

End EViT.

(** ** Shapes *)

Section Shapes.
Context {R : Type}.

(** An attention map with a class-token row of [N] columns in every head
    (the part of the shape [H, N, N] that the scorer reads). *)
Definition attn_shaped (attn : list (list (list R))) (N : nat) : Prop :=
  Forall (λ head, ∃ row, head !! 0%nat = Some row ∧ length row = N) attn.

(** The two residual branches of a block keep the number of tokens, and the
    attention map has the shape of its input. *)
Definition branches_shaped
    (branches : (list (list R) → list (list R) * list (list (list R)))
                * (list (list R) → list (list R))) : Prop :=
  ∀ x, length (branches.1 x).1 = length x
       ∧ attn_shaped (branches.1 x).2 (length x)
       ∧ length (branches.2 x) = length x.

Definition block_shaped (blk : Block.t R) : Prop :=
  branches_shaped (Block.attn_branch blk, Block.mlp_branch blk).

End Shapes.

(** ** Sequence lengths *)

(** The number of tokens that leaves a stage entered with [N] tokens, when
    the stage returns: [N] when the keep rate is not below 1, and
    [1 + left + 1] when it is and [1 <= left < N - 1]. *)
Definition stage_length (keep_rate : float) (N : nat) : option nat :=
  if (keep_rate <? 1)%float then
    match left_tokens keep_rate (Z.of_nat N) with
    | Ok kept =>
        if decide (1 ≤ kept < Z.of_nat N - 1) then Some (1 + Z.to_nat kept + 1)%nat
        else None
    | Raise _ => None
    end
  else Some N.

(** The lengths after each of the stages with the given keep rates. *)
Fixpoint length_trajectory (rates : list float) (N : nat) : option (list nat) :=
  match rates with
  | [] => Some []
  | r :: rates' =>
      N' ← stage_length r N;
      rest ← length_trajectory rates' N';
      Some (N' :: rest)
  end.

(** ** The fused token and the reassembly, as the spec words them *)

(** Addition of scalars is a monoid. *)
Class AddMonoid (R : Type) `{Scalar R} : Prop := {
  radd_0_l : ∀ a : R, radd rzero a = a;
  radd_0_r : ∀ a : R, radd a rzero = a;
  radd_assoc : ∀ a b c : R, radd a (radd b c) = radd (radd a b) c;
}.

Section Spec.
Context {R : Type} `{Scalar R}.



End Spec.

(** ** The selector as the library specifies it *)

Section Selector.
Context {R : Type} `{Scalar R}.

(** The score at position [i] is not smaller than the score at position
    [j]. *)
Definition not_below (scores : list R) (i j : nat) : Prop :=
  match scores !! i, scores !! j with
  | Some si, Some sj => rlt si sj = false
  | _, _ => False
  end.

(** What the call of line 211 asks of [torch.topk] with [largest=True,
    sorted=True]: for [k] not above the number of scores it returns [k]
    positions, none of them twice, in descending order of score, and no
    position left out has a larger score than a position returned.  Which
    of several equal scores comes first, or is returned at all, is not
    part of it. *)
Definition largest_sorted (selector : list R → nat → result (list nat)) : Prop :=
  ∀ scores k, (k ≤ length scores)%nat →
    ∃ idx,
      selector scores k = Ok idx ∧
      length idx = k ∧
      NoDup idx ∧
      Forall (λ i, (i < length scores)%nat) idx ∧
      StronglySorted (not_below scores) idx ∧
      (∀ i j, i ∈ idx → (j < length scores)%nat → j ∉ idx → not_below scores i j).

(** A selector that returns the largest scores in descending order and, of
    equal scores, the later position first: the descending insertion sort
    of the positions taken from the last to the first. *)
Definition ranking_later_first (scores : list R) : list nat :=
  (sort_desc_stable (reverse (zip (seq 0 (length scores)) scores))).*1.

Definition topk_later_first (scores : list R) (k : nat) : result (list nat) :=
  if decide (k ≤ length scores)%nat
  then Ok (take k (ranking_later_first scores))
  else Raise RuntimeError.

End Selector.

(** ** The number of kept tokens, as the spec words it *)

(** The number that a finite binary64 value stands for: its signed
    mantissa times two to its exponent. *)
Definition float_value (f : float) : option Q :=
  match Prim2SF f with
  | S754_zero _ => Some 0%Q
  | S754_finite s m e =>
      Some (inject_Z (if s then Z.neg m else Z.pos m) * 2 ^ e)%Q
  | S754_infinity _ => None
  | S754_nan => None
  end.

(** [z] is the ceiling of [q]: the least integer that is not below [q]. *)
Definition is_ceil (q : Q) (z : Z) : Prop :=
  (inject_Z (z - 1) < q)%Q ∧ (q <= inject_Z z)%Q.

(** Section 4.2: [left = ceil(keep_rate × (N - 1))], the product being the
    binary64 product that the interpreter computes. *)
Definition ceil_of_product (keep_rate : float) (N left : nat) : Prop :=
  ∃ q, float_value (keep_rate * float_of_int (Z.of_nat N - 1))%float = Some q
       ∧ is_ceil q (Z.of_nat left).

(** ** Concrete configurations *)

(** The tensor library of the concrete runs of this file: its [torch.cat]
    raises [ValueError] on an empty list. *)
#[global] Instance concrete_library : TensorLibrary := {|
  cat_empty_error := ValueError;
|}.

(** The configuration of the end-to-end example: reduction at stages 3, 6
    and 9 with keep rate 0.9, no cross-layer cache. *)
Definition trajectory_args : EViT.args :=
  EViT.mk_args
    [0x1.ccccccccccccdp-1; 0x1.ccccccccccccdp-1; 0x1.ccccccccccccdp-1]%float
    [3; 6; 9]%Z false false false false false 0.

(** Sublayers whose branches return their input, with one head of uniform
    attention. *)
Definition uniform_sublayers (i : nat)
    : (list (list Z) → list (list Z) * list (list (list Z)))
      * (list (list Z) → list (list Z)) :=
  (λ x, (x, [[replicate (length x) 1%Z]]), λ x, x).

(** The configuration of the end-to-end example with the cross-layer cache
    enabled and the pooled carrier as its only source. *)
Definition cache_args : EViT.args :=
  EViT.mk_args [0x1.ccccccccccccdp-1%float] [3; 6; 9]%Z true true false false false 0.

(** The attributes that the constructor leaves for [cache_args], without the
    blocks. *)
Definition cache_model : EViT.t Z :=
  EViT.mk [] [3; 6; 9]%Z
    [0x1.ccccccccccccdp-1; 0x1.ccccccccccccdp-1; 0x1.ccccccccccccdp-1]%float
    [3; 6; 9]%Z true true false false None.

From Stdlib Require Import Qpower.
From stdpp Require Import strings.

(** ** Sequence lengths with the cross-layer cache *)

(** The number of tokens of [x[:, -k:]] on a sequence of [N] tokens. *)
Definition tail_slice_length (N k : nat) : nat :=
  match k with
  | O => N
  | _ => (N - (N - k))%nat
  end.

Section CacheShapes.
Context {R : Type}.

(** Lines 657-671 on token counts: the pooled token counts for one, the
    carried slice for its length; without either source [torch.cat] has
    nothing to join. *)
Definition carriers_length (m : EViT.t R) (N : nat) : option nat :=
  let gap := if EViT.clc_include_gap m then [1%nat] else [] in
  let carried :=
    match EViT.clr m with
    | Some num_clr => [tail_slice_length N num_clr]
    | None => []
    end in
  match gap ++ carried with
  | [] => None
  | counts => Some (sum_list counts)
  end.

(** Lines 648-672 on token counts.  The state is the length of the sequence
    and the lengths of the buffered entries. *)
Definition cache_step_shape (m : EViT.t R) (i : Z) (s : nat * list nat)
    : option (nat * list nat) :=
  s1 ← (if EViT.clc m && bool_decide (i ∈ EViT.recovery_layers m) then
          match s.2 with
          | [] => None
          | cache => Some ((s.1 + sum_list cache)%nat, [])
          end
        else Some s);
  if EViT.clc m then
    final ← last (EViT.recovery_layers m);
    if (i <? final)%Z then
      entry ← carriers_length m s1.1;
      Some (s1.1, s1.2 ++ [entry])
    else Some s1
  else Some s1.

(** The loop of lines 637-672 on token counts, from stage [i] on: the
    length of the sequence and the lengths of the buffered entries at the
    end of every stage. *)
Fixpoint cache_length_trajectory (m : EViT.t R) (i : Z) (rates : list float)
    (s : nat * list nat) : option (list (nat * list nat)) :=
  match rates with
  | [] => Some []
  | r :: rates' =>
      N' ← stage_length r s.1;
      s' ← cache_step_shape m i (N', s.2);
      rest ← cache_length_trajectory m (i + 1)%Z rates' s';
      Some (s' :: rest)
  end.

(** The token counts of a state of the stage loop. *)
Definition state_shape (st : EViT.state R) : nat * list nat :=
  (length (EViT.x st), length <$> EViT.cross_layer_cache st).

End CacheShapes.

(** ** The model without its cache *)

(** The model with [self.clc = False] and every other attribute as it
    is. *)
Definition cache_disabled {R : Type} (m : EViT.t R) : EViT.t R :=
  EViT.mk (EViT.blocks m) (EViT.reduction_loc m) (EViT.token_ratio m)
    (EViT.recovery_layers m) false (EViT.clc_include_gap m) (EViT.clc_pool_cls m)
    (EViT.clc_pool_clr m) (EViT.clr m).

(** ** The class tokens of the feature-fusion head *)

Section ClassTokens.
Context {R : Type} `{Scalar R} `{TensorLibrary}.

(** Line 468 of [reset_classifier]: the number of class tokens that the
    feature-fusion head is built for. *)
Definition inter_feats (m : EViT.t R) : nat :=
  (length (EViT.reduction_loc m) + 1)%nat.

(** Lines 675-676, with [cls_list] a list (the feature-fusion head is
    enabled): [x[:, 0]] is appended at the reduction locations and at the
    last block. *)
Definition collect_cls (m : EViT.t R) (i : Z) (st : EViT.state R)
    (cls_list : list (list R)) : result (list (list R)) :=
  if bool_decide (i ∈ EViT.reduction_loc m)
     || bool_decide (i = Z.of_nat (length (EViT.blocks m)) - 1)%Z
  then
    match EViT.x st !! 0%nat with
    | Some cls => Ok (cls_list ++ [cls])
    | None => Raise IndexError
    end
  else Ok cls_list.

(** The loop of lines 637-676 with the feature-fusion head enabled, from
    stage [i] on; the result is [cls_list] after the last stage. *)
Fixpoint stages_cls (m : EViT.t R) (i : Z) (blks : list (Block.t R))
    (st : EViT.state R) (cls_list : list (list R)) : result (list (list R)) :=
  match blks with
  | [] => Ok cls_list
  | blk :: blks' =>
      st' ← EViT.stage m i blk st;
      cls_list' ← collect_cls m i st' cls_list;
      stages_cls m (i + 1)%Z blks' st' cls_list'
  end.

(** Lines 630-676: the class tokens that [forward] stacks for the
    feature-fusion head. *)
Definition forward_cls_list (m : EViT.t R) (x : list (list R)) : result (list (list R)) :=
  stages_cls m 0%Z (EViT.blocks m) (EViT.initial_state m x) [].

End ClassTokens.

(** ** The classifier: [reset_classifier] and the pooling of [forward] *)

Module Classifier.

(** The attributes that [reset_classifier] and the pooling step read and
    write.  [attn_pool] is the attention pooling module when there is one;
    [ifa_head] tells whether the feature-fusion head is enabled. *)
Record t (R : Type) := mk {
  num_classes : Z;
  global_pool : string;
  attn_pool : option (list (list R) → list R);
  num_prefix_tokens : nat;
  ifa_head : bool;
}.
Arguments mk {R} _ _ _ _ _.
Arguments num_classes {R} _.
Arguments global_pool {R} _.
Arguments attn_pool {R} _.
Arguments num_prefix_tokens {R} _.
Arguments ifa_head {R} _.

(** What the pooling step leaves: one vector for the sequence, or the
    sequence itself when no pooling is configured. *)
Inductive pooled (R : Type) : Type :=
  | Vector (v : list R)
  | Sequence (x : list (list R)).
Arguments Vector {R} v.
Arguments Sequence {R} x.

Section Classifier.
Context {R : Type} `{Scalar R}.

(** Lines 464-505.  With the feature-fusion head the function returns at
    line 494 and touches none of the attributes modelled here.  Line 501
    compares with ['map '], the name followed by a space.  The primed
    names are the arguments, the record holds the attributes of [self].
    The result is the object when the call returns; an exception leaves the
    object with [num_classes] already assigned (line 496), which the result
    does not show. *)
Definition reset_classifier (c : t R) (num_classes' : Z) (global_pool' : option string)
    : result (t R) :=
  if ifa_head c then Ok c
  else
    match global_pool' with
    | Some gp =>
        _ ← py_assert (bool_decide (gp ∈ [EmptyString; "avg"; "token"; "map"]%string));
        let has_pool := bool_decide (is_Some (attn_pool c)) in
        if bool_decide (gp = "map"%string) && negb has_pool then
          Raise AssertionError
        else
          let attn_pool' :=
            if bool_decide (gp ≠ "map "%string) && has_pool
            then None else attn_pool c in
          Ok (mk num_classes' gp attn_pool' (num_prefix_tokens c) (ifa_head c))
    | None =>
        Ok (mk num_classes' (global_pool c) (attn_pool c) (num_prefix_tokens c)
               (ifa_head c))
    end.

(** Lines 689-694 of [forward], the branch without the feature-fusion
    head, on the normalised sequence. *)
Definition pool (c : t R) (x : list (list R)) : result (pooled R) :=
  match attn_pool c with
  | Some attention => Ok (Vector (attention x))
  | None =>
      if bool_decide (global_pool c = "avg"%string) then
        let patches := drop (num_prefix_tokens c) x in
        Ok (Vector (vmean (channels x) patches))
      else if bool_decide (global_pool c ≠ EmptyString) then
        match x !! 0%nat with
        | Some cls => Ok (Vector cls)
        | None => Raise IndexError
        end
      else Ok (Sequence x)
  end.

End Classifier.
End Classifier.

(** * Theory *)

Local Open Scope nat_scope.

(** * Sorted lists *)

Section SortedFacts.
Context {A : Type}.
Implicit Types (R : relation A) (l : list A).

Lemma StronglySorted_weaken R R' l :
  (∀ a b, R a b → R' a b) → StronglySorted R l → StronglySorted R' l.
Proof.
  intros HR. induction 1 as [|a l _ IH Hall]; constructor; [done|].
  eapply Forall_impl; [exact Hall|]. intros b. apply HR.
Qed.

Lemma StronglySorted_sublist R (P : A → Prop) `{!∀ a, Decision (P a)} l :
  StronglySorted R l → StronglySorted R (filter P l).
Proof.
  induction 1 as [|a l _ IH Hall]; [constructor|].
  rewrite filter_cons. case_decide; [|done].
  constructor; [done|]. apply Forall_forall. intros b [_ Hb]%list_elem_of_filter.
  rewrite Forall_forall in Hall. by apply Hall.
Qed.

End SortedFacts.

Lemma seq_increasing s n : StronglySorted lt (seq s n).
Proof.
  revert s. induction n as [|n IH]; intros s; simpl; constructor; [apply IH|].
  apply Forall_forall. intros j Hj%elem_of_seq. lia.
Qed.

(** * Properties of [complement_idx] *)

Section Complement.
Implicit Types (idx a l : list nat) (dim : nat).

Lemma scatter_lookup idx : ∀ a,
  Forall (λ i, i < length a) idx →
  ∃ masked, scatter a idx 0 = Ok masked ∧ length masked = length a ∧
    ∀ j v, a !! j = Some v →
      masked !! j = Some (if decide (j ∈ idx) then 0 else v).
Proof.
  induction idx as [|i idx IH]; intros a Hin; cbn [scatter].
  - exists a. split_and!; [done..|]. intros j v Hj.
    destruct (decide (j ∈ [])) as [Hj'|]; [|done]. by apply not_elem_of_nil in Hj'.
  - apply Forall_cons in Hin as [Hi Hin].
    rewrite decide_True by done.
    destruct (IH (<[i:=0]> a)) as (masked & Hs & Hlen & Hlk).
    { by rewrite length_insert. }
    exists masked. rewrite length_insert in Hlen. split_and!; [done..|].
    intros j v Hj. destruct (decide (j = i)) as [->|Hne].
    + rewrite (Hlk i 0); [|by apply list_lookup_insert_eq].
      rewrite (decide_True (P := i ∈ i :: idx)); [|by left].
      by destruct (decide (i ∈ idx)).
    + rewrite (Hlk j v); [|by rewrite list_lookup_insert_ne].
      destruct (decide (j ∈ idx)) as [Hj'|Hj'].
      * rewrite decide_True; [done|by right].
      * rewrite decide_False; [done|]. rewrite elem_of_cons. tauto.
Qed.

Lemma scatter_arange idx dim :
  Forall (λ i, i < dim) idx →
  scatter (seq 0 dim) idx 0 = Ok (zero_kept idx <$> seq 0 dim).
Proof.
  intros Hin. destruct (scatter_lookup idx (seq 0 dim)) as (masked & -> & Hlen & Hlk).
  { by rewrite length_seq. }
  f_equal. apply list_eq. intros j. rewrite list_lookup_fmap.
  rewrite length_seq in Hlen.
  destruct (decide (j < dim)) as [Hj|Hj].
  - rewrite lookup_seq_lt by done. simpl.
    rewrite (Hlk j j); [done|]. by rewrite lookup_seq_lt.
  - rewrite lookup_seq_ge by lia. simpl. apply lookup_ge_None. lia.
Qed.

Lemma kept_positions_perm idx dim :
  NoDup idx → Forall (λ i, i < dim) idx →
  filter (λ j, j ∈ idx) (seq 0 dim) ≡ₚ idx.
Proof.
  intros Hnd Hin. apply NoDup_Permutation; [|done|].
  - apply NoDup_filter, NoDup_seq.
  - intros j. rewrite list_elem_of_filter, elem_of_seq.
    rewrite Forall_forall in Hin. split; [tauto|]. intros Hj.
    specialize (Hin j Hj). split; [done|lia].
Qed.

Lemma zero_kept_kept idx l :
  zero_kept idx <$> filter (λ j, j ∈ idx) l = replicate (length (filter (λ j, j ∈ idx) l)) 0.
Proof.
  induction l as [|j l IH]; [done|].
  rewrite filter_cons. case_decide; [|done].
  rewrite fmap_cons, IH. unfold zero_kept at 1. by rewrite decide_True.
Qed.

Lemma zero_kept_dropped idx l :
  zero_kept idx <$> filter (λ j, j ∉ idx) l = filter (λ j, j ∉ idx) l.
Proof.
  induction l as [|j l IH]; [done|].
  rewrite filter_cons. case_decide; [|done].
  rewrite fmap_cons, IH. unfold zero_kept at 1. by rewrite decide_False.
Qed.

Lemma masked_perm idx dim :
  NoDup idx → Forall (λ i, i < dim) idx →
  zero_kept idx <$> seq 0 dim ≡ₚ replicate (length idx) 0 ++ ascending_complement idx dim.
Proof.
  intros Hnd Hin. unfold ascending_complement.
  rewrite <- (filter_app_complement (λ j, j ∈ idx) (seq 0 dim)) at 1.
  rewrite fmap_app, zero_kept_kept, zero_kept_dropped.
  by rewrite (kept_positions_perm idx dim).
Qed.

Lemma ascending_complement_sorted idx dim :
  StronglySorted lt (ascending_complement idx dim).
Proof.
  unfold ascending_complement. apply StronglySorted_sublist, seq_increasing.
Qed.

Lemma zeros_then_complement_sorted n idx dim :
  Sorted le (replicate n 0 ++ ascending_complement idx dim).
Proof.
  apply StronglySorted_Sorted. induction n as [|n IH]; simpl.
  - eapply StronglySorted_weaken; [|apply ascending_complement_sorted].
    intros ???; lia.
  - constructor; [done|]. apply Forall_forall. intros; lia.
Qed.

Lemma sort_masked idx dim :
  NoDup idx → Forall (λ i, i < dim) idx →
  sort_ascending (zero_kept idx <$> seq 0 dim)
  = replicate (length idx) 0 ++ ascending_complement idx dim.
Proof.
  intros Hnd Hin. apply (Sorted_unique le).
  - apply Sorted_merge_sort. apply _.
  - apply zeros_then_complement_sorted.
  - unfold sort_ascending. rewrite merge_sort_Permutation. by apply masked_perm.
Qed.

Lemma complement_idx_row_eq idx dim :
  NoDup idx → Forall (λ i, i < dim) idx →
  complement_idx_row idx dim = Ok (ascending_complement idx dim).
Proof.
  intros Hnd Hin. unfold complement_idx_row.
  rewrite scatter_arange by done. simpl.
  rewrite sort_masked by done.
  rewrite drop_app_length'; [done|]. by rewrite length_replicate.
Qed.
End Complement.

Lemma elem_of_ascending_complement (idx : list nat) dim j :
  j ∈ ascending_complement idx dim ↔ j < dim ∧ j ∉ idx.
Proof.
  unfold ascending_complement. rewrite list_elem_of_filter, elem_of_seq.
  intuition lia.
Qed.

Lemma ascending_complement_NoDup (idx : list nat) dim :
  NoDup (ascending_complement idx dim).
Proof. apply NoDup_filter, NoDup_seq. Qed.

Lemma ascending_complement_range (idx : list nat) dim :
  Forall (λ j, j < dim) (ascending_complement idx dim).
Proof. apply Forall_forall. by intros j [? _]%elem_of_ascending_complement. Qed.

Lemma ascending_complement_length (idx : list nat) dim :
  NoDup idx → Forall (λ i, i < dim) idx →
  length idx + length (ascending_complement idx dim) = dim.
Proof.
  intros Hnd Hin. pose proof (masked_perm idx dim Hnd Hin) as Hp.
  apply Permutation_length in Hp.
  rewrite length_fmap, length_seq, length_app, length_replicate in Hp. lia.
Qed.

(** * The error monad on lists *)

Section MapM.
Context {A B : Type} (f : A → result B).

Lemma mapM_Ok_Forall2 (l : list A) :
  Forall (λ a, ∃ b, f a = Ok b) l →
  ∃ k, mapM f l = Ok k ∧ Forall2 (λ a b, f a = Ok b) l k.
Proof.
  induction 1 as [|a l [b Hb] _ (k & Hk & IH)]; simpl.
  - exists []. split; [done|constructor].
  - exists (b :: k). rewrite Hb. simpl. rewrite Hk. simpl. split; [done|by constructor].
Qed.

Lemma mapM_Ok_inv (l : list A) k :
  mapM f l = Ok k → Forall2 (λ a b, f a = Ok b) l k.
Proof.
  revert k. induction l as [|a l IH]; intros k; simpl.
  - intros [= <-]. constructor.
  - destruct (f a) as [b|] eqn:Hb; simpl; [|done].
    destruct (mapM f l) as [k'|] eqn:Hk; simpl; [|done].
    intros [= <-]. constructor; [done|by apply IH].
Qed.
End MapM.

Lemma gather_Ok {A} (src : list A) (index : list nat) :
  Forall (λ i, i < length src) index →
  ∃ out, gather src index = Ok out ∧ Forall2 (λ i a, src !! i = Some a) index out.
Proof.
  intros Hin. unfold gather.
  edestruct (mapM_Ok_Forall2 (λ i, match src !! i with Some a => Ok a | None => Raise RuntimeError end) index)
    as (out & Hout & Hall).
  - eapply Forall_impl; [exact Hin|]. intros i Hi. simpl.
    destruct (lookup_lt_is_Some_2 src i Hi) as [a ->]. by exists a.
  - exists out. split; [done|]. eapply Forall2_impl; [exact Hall|].
    intros i a. simpl. destruct (src !! i); congruence.
Qed.

Lemma gather_Ok_inv {A} (src : list A) (index : list nat) out :
  gather src index = Ok out → Forall2 (λ i a, src !! i = Some a) index out.
Proof.
  intros Hg%mapM_Ok_inv. eapply Forall2_impl; [exact Hg|].
  intros i a. simpl. destruct (src !! i); congruence.
Qed.

Lemma complement_idx_eq (idx : list (list nat)) dim :
  Forall (λ row, NoDup row ∧ Forall (λ i, i < dim) row) idx →
  complement_idx idx dim = Ok ((λ row, ascending_complement row dim) <$> idx).
Proof.
  unfold complement_idx. induction 1 as [|row idx [Hnd Hin] _ IH]; [done|].
  cbn [mapM]. rewrite complement_idx_row_eq by done. simpl.
  rewrite IH. done.
Qed.

#[global] Instance Z_score_order : ScoreOrder Z.
Proof.
  split; simpl.
  - intros a b ?%Z.ltb_lt. apply Z.ltb_ge. lia.
  - intros a b c ?%Z.ltb_ge ?%Z.ltb_ge. apply Z.ltb_ge. lia.
Qed.

(** * The top-k selection *)

Lemma StronglySorted_weaken_elem {A} (R R' : relation A) (l : list A) :
  (∀ a b, a ∈ l → b ∈ l → R a b → R' a b) → StronglySorted R l → StronglySorted R' l.
Proof.
  intros HR Hl. induction Hl as [|a l _ IH Hall]; constructor.
  - apply IH. intros b c Hb Hc. apply HR; by right.
  - apply Forall_forall. intros b Hb. rewrite Forall_forall in Hall.
    apply HR; [by left|by right|by apply Hall].
Qed.

Section TopK.
Context {R : Type} `{ScoreOrder R}.
Implicit Types (p q : nat * R) (l : list (nat * R)) (scores : list R).

Lemma insert_desc_perm p l : insert_desc p l ≡ₚ p :: l.
Proof.
  induction l as [|q l IH]; simpl; [done|].
  destruct (rlt p.2 q.2); [|done]. rewrite IH. apply perm_swap.
Qed.

Lemma sort_desc_stable_perm l : sort_desc_stable l ≡ₚ l.
Proof.
  induction l as [|p l IH]; simpl; [done|].
  by rewrite insert_desc_perm, IH.
Qed.

Lemma entry_before_not_lt p q : entry_before p q → rlt p.2 q.2 = false.
Proof. intros [?%rlt_asym|[? _]]; done. Qed.

Lemma insert_desc_sorted p l :
  StronglySorted entry_before l →
  Forall (λ q, p.1 < q.1) l →
  StronglySorted entry_before (insert_desc p l).
Proof.
  induction 1 as [|q l Hl IH Hall]; intros Hlt; simpl.
  - repeat constructor.
  - apply Forall_cons in Hlt as [Hq Hlt].
    destruct (rlt p.2 q.2) eqn:Hpq.
    + constructor; [by apply IH|].
      rewrite insert_desc_perm. constructor; [by left|done].
    + constructor; [by constructor|].
      constructor; [by right|].
      rewrite Forall_forall in Hall, Hlt. apply Forall_forall. intros q' Hq'.
      right. split; [|by apply Hlt].
      eapply rlt_negtrans; [exact Hpq|]. by apply entry_before_not_lt, Hall.
Qed.

Lemma sort_desc_stable_sorted l :
  StronglySorted lt (l.*1) → StronglySorted entry_before (sort_desc_stable l).
Proof.
  induction l as [|p l IH]; [constructor|].
  rewrite fmap_cons. intros HS. apply StronglySorted_inv in HS as [Hl Hall].
  change (sort_desc_stable (p :: l)) with (insert_desc p (sort_desc_stable l)).
  apply insert_desc_sorted; [by apply IH|].
  rewrite sort_desc_stable_perm. rewrite Forall_fmap in Hall.
  eapply Forall_impl; [exact Hall|]. by intros q.
Qed.

(** The positions paired with their scores, as the sort sees them. *)
Lemma indexed_fst scores : (zip (seq 0 (length scores)) scores).*1 = seq 0 (length scores).
Proof. apply fst_zip. by rewrite length_seq. Qed.

Lemma indexed_lookup scores i s :
  (i, s) ∈ zip (seq 0 (length scores)) scores → scores !! i = Some s.
Proof.
  intros (k & Hk)%list_elem_of_lookup_1.
  apply lookup_zip_with_Some in Hk as (i' & s' & [= <- <-] & Hi & Hs).
  apply lookup_seq in Hi as [-> _]. done.
Qed.

Lemma ranking_perm scores : ranking scores ≡ₚ seq 0 (length scores).
Proof. unfold ranking. by rewrite sort_desc_stable_perm, indexed_fst. Qed.

Lemma ranking_sorted scores : StronglySorted (rank_before scores) (ranking scores).
Proof.
  unfold ranking.
  apply (StronglySorted_fmap fst (λ p q, rank_before scores p.1 q.1)); [done|].
  eapply StronglySorted_weaken_elem; [|apply sort_desc_stable_sorted].
  - intros [i si] [j sj] Hi Hj Hb.
    rewrite sort_desc_stable_perm in Hi, Hj.
    apply indexed_lookup in Hi, Hj. unfold rank_before. simpl.
    by rewrite Hi, Hj.
  - rewrite indexed_fst. apply seq_increasing.
Qed.
End TopK.

Section TopKSpec.
Context {R : Type} `{ScoreOrder R}.
Implicit Types (scores : list R).

Lemma ranking_length scores : length (ranking scores) = length scores.
Proof. by rewrite (Permutation_length (ranking_perm scores)), length_seq. Qed.

Lemma ranking_NoDup scores : NoDup (ranking scores).
Proof. rewrite ranking_perm. apply NoDup_seq. Qed.

Lemma elem_of_ranking scores i : i ∈ ranking scores ↔ i < length scores.
Proof. rewrite ranking_perm, elem_of_seq. lia. Qed.

Lemma topk_Ok scores k :
  k ≤ length scores → topk scores k = Ok (take k (ranking scores)).
Proof. intros Hk. unfold topk. by rewrite decide_True. Qed.

Lemma topk_length scores k :
  k ≤ length scores → length (take k (ranking scores)) = k.
Proof. intros Hk. rewrite length_take, ranking_length. lia. Qed.

Lemma topk_NoDup scores k : NoDup (take k (ranking scores)).
Proof.
  pose proof (ranking_NoDup scores) as Hn.
  rewrite <- (take_drop k (ranking scores)) in Hn.
  by apply NoDup_app in Hn as [? _].
Qed.

Lemma topk_range scores k : Forall (λ i, i < length scores) (take k (ranking scores)).
Proof.
  apply Forall_forall. intros i Hi. apply elem_of_ranking.
  rewrite <- (take_drop k (ranking scores)). apply elem_of_app. by left.
Qed.


(** Every selected position ranks before every position left out. *)
Lemma topk_dominates scores k i j :
  i ∈ take k (ranking scores) → j < length scores → j ∉ take k (ranking scores) →
  rank_before scores i j.
Proof.
  intros Hi Hj Hnj.
  pose proof (ranking_sorted scores) as Hs.
  rewrite <- (take_drop k (ranking scores)) in Hs.
  apply StronglySorted_app in Hs as (Hs & _ & _). apply Hs; [done|].
  apply elem_of_ranking in Hj.
  rewrite <- (take_drop k (ranking scores)) in Hj.
  apply elem_of_app in Hj as [?|?]; done.
Qed.
End TopKSpec.

(** * Shapes of sums and means *)

Section ShapeFacts.
Context {R : Type} `{Scalar R}.

Lemma vsum_length C (rows : list (list R)) :
  Forall (λ row, length row = C) rows → length (vsum C rows) = C.
Proof.
  unfold vsum. generalize (replicate C rzero) (length_replicate C (rzero (R:=R))).
  intros acc Hacc Hrows. revert acc Hacc.
  induction Hrows as [|row rows Hrow _ IH]; intros acc Hacc; simpl; [done|].
  apply IH. unfold vadd. rewrite length_zip_with. lia.
Qed.

Lemma vmean_length C (rows : list (list R)) :
  Forall (λ row, length row = C) rows → length (vmean C rows) = C.
Proof. intros. unfold vmean. by rewrite length_fmap, vsum_length. Qed.

Lemma cls_attention_Ok (attn : list (list (list R))) N :
  attn_shaped attn N →
  ∃ scores, cls_attention attn N = Ok scores ∧ length scores = N - 1.
Proof.
  intros Hattn. unfold cls_attention.
  destruct (mapM_Ok_Forall2 cls_row attn) as (rows & -> & Hrows).
  - eapply Forall_impl; [exact Hattn|]. intros head (row & Hrow & _).
    unfold cls_row. rewrite Hrow. eauto.
  - simpl. eexists. split; [done|]. apply vmean_length.
    unfold attn_shaped in Hattn. 
    induction Hrows as [|head row attn rows Hhead _ IH]; [constructor|].
    apply Forall_cons in Hattn as [(row' & Hrow' & Hlen) Hattn].
    constructor; [|by apply IH].
    unfold cls_row in Hhead. rewrite Hrow' in Hhead. injection Hhead as <-.
    rewrite length_drop. lia.
Qed.
End ShapeFacts.

(** * The reduction step of [Block.forward] *)

Section Reduce.
Context {R : Type} `{Scalar R}.
Implicit Types (x : list (list R)) (attn : list (list (list R))).

Lemma reduce_not_below_one keep_rate N C x attn :
  (keep_rate <? 1)%float = false →
  Block.reduce keep_rate N C x attn = Ok (x, Block.IndexNone).
Proof. intros Hk. unfold Block.reduce. by rewrite Hk. Qed.

Lemma reduce_all_left keep_rate N C x attn :
  (keep_rate <? 1)%float = true →
  left_tokens keep_rate (Z.of_nat N) = Ok (Z.of_nat N - 1)%Z →
  Block.reduce keep_rate N C x attn = Ok (x, Block.NotBound).
Proof.
  intros Hk Hleft. unfold Block.reduce. rewrite Hk, Hleft. simpl.
  by rewrite decide_False by (intros Hne; by apply Hne).
Qed.

Lemma reduce_fires keep_rate N C x attn left :
  (keep_rate <? 1)%float = true →
  left_tokens keep_rate (Z.of_nat N) = Ok (Z.of_nat left) →
  1 ≤ left < N - 1 →
  length x = N →
  attn_shaped attn N →
  ∃ scores x_others non_topk non_topk_attn,
    let kept := take left (ranking scores) in
    let compl := ascending_complement kept (N - 1) in
    cls_attention attn N = Ok scores ∧ length scores = N - 1 ∧
    Forall2 (λ i t, drop 1 x !! i = Some t) kept x_others ∧
    Forall2 (λ i t, drop 1 x !! i = Some t) compl non_topk ∧
    Forall2 (λ i s, scores !! i = Some s) compl non_topk_attn ∧
    Block.reduce keep_rate N C x attn
    = Ok (take 1 x ++ x_others ++ [Block.fuse C non_topk non_topk_attn],
          Block.Reduced kept (Block.selection_trace kept) compl).
Proof.
  intros Hk Hleft Hrange Hx Hattn.
  destruct (cls_attention_Ok attn N Hattn) as (scores & Hscores & Hlen).
  assert (Hkept_range : Forall (λ i, i < N - 1) (take left (ranking scores))).
  { rewrite <- Hlen. apply topk_range. }
  destruct (gather_Ok (drop 1 x) (take left (ranking scores))) as (x_others & Hg1 & Hf1).
  { by rewrite length_drop, Hx. }
  pose proof (ascending_complement_range (take left (ranking scores)) (N - 1)) as Hcr.
  destruct (gather_Ok (drop 1 x) (ascending_complement (take left (ranking scores)) (N - 1)))
    as (non_topk & Hg2 & Hf2).
  { by rewrite length_drop, Hx. }
  destruct (gather_Ok scores (ascending_complement (take left (ranking scores)) (N - 1)))
    as (non_topk_attn & Hg3 & Hf3).
  { by rewrite Hlen. }
  exists scores, x_others, non_topk, non_topk_attn. simpl.
  split_and!; [done..|].
  unfold Block.reduce. rewrite Hk, Hleft. simpl.
  rewrite decide_True by lia.
  replace (1 <=? Z.of_nat left)%Z with true by (symmetry; apply Z.leb_le; lia).
  simpl. rewrite Hscores. simpl.
  rewrite Nat2Z.id, topk_Ok by lia. simpl.
  rewrite Hg1. simpl.
  rewrite complement_idx_row_eq by (done || apply topk_NoDup). simpl.
  rewrite Hg2. simpl. rewrite Hg3. done.
Qed.
End Reduce.

(** * The ceiling of a binary64 value *)

Lemma is_ceil_unique (q : Q) (z z' : Z) : is_ceil q z → is_ceil q z' → z = z'.
Proof.
  intros [Hlo Hhi] [Hlo' Hhi'].
  pose proof (Qlt_le_trans _ _ _ Hlo Hhi') as H1.
  pose proof (Qlt_le_trans _ _ _ Hlo' Hhi) as H2.
  rewrite <- Zlt_Qlt in H1, H2. lia.
Qed.

Lemma is_ceil_integer (z : Z) (q : Q) : (q == inject_Z z)%Q → is_ceil q z.
Proof.
  intros Hq. split; rewrite Hq.
  - rewrite <- Zlt_Qlt. lia.
  - apply Qle_refl.
Qed.

Lemma is_ceil_quotient (v d : Z) (q : Q) :
  (0 < d)%Z → (q == inject_Z v / inject_Z d)%Q → is_ceil q (- (- v / d))%Z.
Proof.
  intros Hd Hq.
  assert (HdQ : (0 < inject_Z d)%Q) by (change 0%Q with (inject_Z 0); by rewrite <- Zlt_Qlt).
  pose proof (Z.div_mod (- v) d ltac:(lia)) as Hdm.
  pose proof (Z.mod_pos_bound (- v) d Hd) as Hmod.
  split; rewrite Hq.
  - apply Qlt_shift_div_l; [done|].
    rewrite <- inject_Z_mult, <- Zlt_Qlt. nia.
  - apply Qle_shift_div_r; [done|].
    rewrite <- inject_Z_mult, <- Zle_Qle. nia.
Qed.

Lemma math_ceil_spec (f : float) (q : Q) :
  float_value f = Some q → ∃ z, math_ceil f = Ok z ∧ is_ceil q z.
Proof.
  unfold float_value, math_ceil.
  destruct (Prim2SF f) as [s|s| |s m e]; intros [= <-].
  - exists 0%Z. split; [done|]. by apply is_ceil_integer.
  - set (v := if s then Z.neg m else Z.pos m).
    destruct (Z.leb_spec 0 e) as [He|He]; eexists; (split; [done|]).
    + apply is_ceil_integer.
      by rewrite inject_Z_mult, (Zpower_Qpower 2 e He).
    + apply is_ceil_quotient; [apply Z.pow_pos_nonneg; lia|].
      assert (He' : e = (- - e)%Z) by lia. rewrite He' at 1.
      rewrite Qpower_opp, (Zpower_Qpower 2 (- e)) by lia. reflexivity.
Qed.

(** The count of line 206 is the ceiling of the binary64 product. *)
Lemma ceil_of_product_left_tokens (keep_rate : float) (N left : nat) :
  ceil_of_product keep_rate N left →
  left_tokens keep_rate (Z.of_nat N) = Ok (Z.of_nat left).
Proof.
  intros (q & Hq & Hceil). unfold left_tokens.
  destruct (math_ceil_spec _ _ Hq) as (z & -> & Hz).
  by rewrite (is_ceil_unique q z (Z.of_nat left)).
Qed.

Lemma left_tokens_ceil_of_product (keep_rate : float) (N left : nat) :
  left_tokens keep_rate (Z.of_nat N) = Ok (Z.of_nat left) →
  ceil_of_product keep_rate N left.
Proof.
  unfold left_tokens, ceil_of_product. intros Hleft.
  destruct (float_value (keep_rate * float_of_int (Z.of_nat N - 1))) as [q|] eqn:Hq.
  - exists q. split; [done|].
    destruct (math_ceil_spec _ _ Hq) as (z & Hz & Hceil).
    rewrite Hz in Hleft. by injection Hleft as <-.
  - unfold float_value in Hq. unfold math_ceil in Hleft.
    by destruct (Prim2SF _).
Qed.

(** * Selectors that return the largest scores in descending order *)

Section Selectors.
Context {R : Type} `{ScoreOrder R}.
Implicit Types (p q : nat * R) (l : list (nat * R)) (scores : list R)
  (r : list nat).

Lemma rank_before_not_below scores i j :
  rank_before scores i j → not_below scores i j.
Proof.
  unfold rank_before, not_below.
  destruct (scores !! i), (scores !! j); [|done..].
  intros [Hlt|[Hnlt _]]; [by apply rlt_asym|done].
Qed.

Lemma insert_desc_descending p l :
  StronglySorted (λ p q, rlt p.2 q.2 = false) l →
  StronglySorted (λ p q, rlt p.2 q.2 = false) (insert_desc p l).
Proof.
  induction 1 as [|q l Hl IH Hall]; simpl.
  - repeat constructor.
  - destruct (rlt p.2 q.2) eqn:Hpq.
    + constructor; [done|].
      rewrite insert_desc_perm. constructor; [by apply rlt_asym|done].
    + constructor; [by constructor|].
      constructor; [done|].
      eapply Forall_impl; [exact Hall|]. intros q' Hq'. cbv beta in *.
      by eapply rlt_negtrans.
Qed.

Lemma sort_desc_stable_descending l :
  StronglySorted (λ p q, rlt p.2 q.2 = false) (sort_desc_stable l).
Proof.
  induction l as [|p l IH]; [constructor|].
  change (sort_desc_stable (p :: l)) with (insert_desc p (sort_desc_stable l)).
  by apply insert_desc_descending.
Qed.

Lemma ranking_later_first_perm scores :
  ranking_later_first scores ≡ₚ seq 0 (length scores).
Proof.
  unfold ranking_later_first.
  by rewrite sort_desc_stable_perm, reverse_Permutation, indexed_fst.
Qed.

Lemma ranking_later_first_sorted scores :
  StronglySorted (not_below scores) (ranking_later_first scores).
Proof.
  unfold ranking_later_first.
  apply (StronglySorted_fmap fst (λ p q, not_below scores p.1 q.1)); [done|].
  eapply StronglySorted_weaken_elem; [|apply sort_desc_stable_descending].
  intros [i si] [j sj] Hi Hj Hb.
  rewrite sort_desc_stable_perm, reverse_Permutation in Hi, Hj.
  apply indexed_lookup in Hi, Hj. unfold not_below. simpl.
  by rewrite Hi, Hj.
Qed.

Lemma ranking_not_below scores :
  StronglySorted (not_below scores) (ranking scores).
Proof.
  eapply StronglySorted_weaken_elem; [|apply ranking_sorted].
  intros i j _ _. apply rank_before_not_below.
Qed.

(** The first [k] of a descending arrangement of all positions. *)
Lemma prefix_largest_sorted scores r k :
  r ≡ₚ seq 0 (length scores) →
  StronglySorted (not_below scores) r →
  k ≤ length scores →
  length (take k r) = k ∧
  NoDup (take k r) ∧
  Forall (λ i, i < length scores) (take k r) ∧
  StronglySorted (not_below scores) (take k r) ∧
  (∀ i j, i ∈ take k r → j < length scores → j ∉ take k r → not_below scores i j).
Proof.
  intros Hperm Hsorted Hk.
  assert (Hlen : length r = length scores).
  { by rewrite (Permutation_length Hperm), length_seq. }
  assert (Hnd : NoDup r) by (rewrite Hperm; apply NoDup_seq).
  assert (Hin : ∀ i, i ∈ r ↔ i < length scores).
  { intros i. rewrite Hperm, elem_of_seq. lia. }
  rewrite <- (take_drop k r) in Hnd, Hsorted.
  apply NoDup_app in Hnd as (Hnd & _ & _).
  apply StronglySorted_app in Hsorted as (Hdom & Htake & _).
  split_and!; [|done| |done|].
  - rewrite length_take. lia.
  - apply Forall_forall. intros i Hi. apply Hin.
    rewrite <- (take_drop k r). apply elem_of_app. by left.
  - intros i j Hi Hj Hnj. apply Hdom; [done|].
    apply Hin in Hj. rewrite <- (take_drop k r) in Hj.
    apply elem_of_app in Hj as [?|?]; done.
Qed.

Lemma largest_sorted_topk : largest_sorted (topk (R := R)).
Proof.
  intros scores k Hk. exists (take k (ranking scores)).
  split; [by apply topk_Ok|].
  apply prefix_largest_sorted; [apply ranking_perm|apply ranking_not_below|done].
Qed.

Lemma largest_sorted_later_first : largest_sorted (topk_later_first (R := R)).
Proof.
  intros scores k Hk. exists (take k (ranking_later_first scores)).
  split; [unfold topk_later_first; by rewrite decide_True|].
  apply prefix_largest_sorted;
    [apply ranking_later_first_perm|apply ranking_later_first_sorted|done].
Qed.
End Selectors.

(** * The reduction step with any such selector *)

Section ReduceWith.
Context {R : Type} `{Scalar R}.
Implicit Types (x : list (list R)) (attn : list (list (list R)))
  (selector : list R → nat → result (list nat)).

Lemma reduce_with_topk keep_rate N C x attn :
  Block.reduce_with topk keep_rate N C x attn = Block.reduce keep_rate N C x attn.
Proof. reflexivity. Qed.

Lemma reduce_with_fires selector keep_rate N C x attn left :
  largest_sorted selector →
  (keep_rate <? 1)%float = true →
  left_tokens keep_rate (Z.of_nat N) = Ok (Z.of_nat left) →
  1 ≤ left < N - 1 →
  length x = N →
  attn_shaped attn N →
  ∃ scores kept x_others non_topk non_topk_attn,
    let compl := ascending_complement kept (N - 1) in
    cls_attention attn N = Ok scores ∧ length scores = N - 1 ∧
    selector scores left = Ok kept ∧
    length kept = left ∧ NoDup kept ∧ Forall (λ i, i < N - 1) kept ∧
    StronglySorted (not_below scores) kept ∧
    (∀ i j, i ∈ kept → j < N - 1 → j ∉ kept → not_below scores i j) ∧
    Forall2 (λ i t, drop 1 x !! i = Some t) kept x_others ∧
    Forall2 (λ i t, drop 1 x !! i = Some t) compl non_topk ∧
    Forall2 (λ i s, scores !! i = Some s) compl non_topk_attn ∧
    Block.reduce_with selector keep_rate N C x attn
    = Ok (take 1 x ++ x_others ++ [Block.fuse C non_topk non_topk_attn],
          Block.Reduced kept (Block.selection_trace kept) compl).
Proof.
  intros Hsel Hk Hleft Hrange Hx Hattn.
  destruct (cls_attention_Ok attn N Hattn) as (scores & Hscores & Hlen).
  destruct (Hsel scores left) as (kept & Hkept & Hkl & Hnd & Hin & Hsorted & Hdom);
    [lia|]. rewrite Hlen in Hin, Hdom.
  destruct (gather_Ok (drop 1 x) kept) as (x_others & Hg1 & Hf1).
  { by rewrite length_drop, Hx. }
  pose proof (ascending_complement_range kept (N - 1)) as Hcr.
  destruct (gather_Ok (drop 1 x) (ascending_complement kept (N - 1)))
    as (non_topk & Hg2 & Hf2).
  { by rewrite length_drop, Hx. }
  destruct (gather_Ok scores (ascending_complement kept (N - 1)))
    as (non_topk_attn & Hg3 & Hf3).
  { by rewrite Hlen. }
  exists scores, kept, x_others, non_topk, non_topk_attn. cbv zeta.
  split_and!; [done..|].
  unfold Block.reduce_with. rewrite Hk, Hleft. cbn [mbind result_bind].
  rewrite decide_True by lia.
  replace (1 <=? Z.of_nat left)%Z with true by (symmetry; apply Z.leb_le; lia).
  cbn [py_assert mbind result_bind]. rewrite Hscores. cbn [mbind result_bind].
  rewrite Nat2Z.id, Hkept. cbn [mbind result_bind].
  rewrite Hg1. cbn [mbind result_bind].
  rewrite complement_idx_row_eq by done. cbn [mbind result_bind].
  rewrite Hg2. cbn [mbind result_bind]. rewrite Hg3. done.
Qed.
End ReduceWith.

(** * The selection at a reducing stage *)

Section Selection.
Context {R : Type} `{Scalar R}.
Implicit Types (x : list (list R)) (attn : list (list (list R))).

Lemma reduce_selection keep_rate N C x attn left :
  (keep_rate <? 1)%float = true →
  left_tokens keep_rate (Z.of_nat N) = Ok (Z.of_nat left) →
  1 ≤ left < N - 1 →
  length x = N →
  attn_shaped attn N →
  ∃ scores x' kept compl,
    cls_attention attn N = Ok scores ∧ length scores = N - 1 ∧
    Block.reduce keep_rate N C x attn
      = Ok (x', Block.Reduced kept (Block.selection_trace kept) compl) ∧
    kept = take left (ranking scores) ∧
    compl = ascending_complement kept (N - 1) ∧
    length kept = left ∧ NoDup kept ∧ Forall (λ i, i < N - 1) kept.
Proof.
  intros Hk Hleft Hrange Hx Hattn.
  destruct (reduce_fires keep_rate N C x attn left Hk Hleft Hrange Hx Hattn)
    as (scores & x_others & non_topk & non_topk_attn & Hs & Hlen & _ & _ & _ & Hred).
  simpl in Hred. eexists scores, _, _, _. split_and!; [done..| | |].
  - apply topk_length. lia.
  - apply topk_NoDup.
  - rewrite <- Hlen. apply topk_range.
Qed.
End Selection.

(** C2. For every [dim] and every index tensor whose rows hold distinct
    values below [dim] (a row may contain the value 0), [complement_idx]
    returns, row by row, the set complement of the row in [{0, ..., dim-1}]
    in ascending order.  Consequently, at every reducing stage the kept and
    the discarded indices are disjoint, together they are [{0, ..., N-2}],
    and their numbers add up to [N - 1]. *)
Theorem complement_idx_set_complement :
  (∀ (idx : list (list nat)) (dim : nat),
     Forall (λ row, NoDup row ∧ Forall (λ i, i < dim) row) idx →
     ∃ compl, complement_idx idx dim = Ok compl ∧
       Forall2 (λ row c,
                  c = ascending_complement row dim ∧
                  StronglySorted lt c ∧
                  (∀ j, j ∈ c ↔ j < dim ∧ j ∉ row) ∧
                  length row + length c = dim) idx compl)
  ∧
  (∀ (R : Type) (HR : Scalar R) keep_rate N C (x : list (list R)) attn left,
     (keep_rate <? 1)%float = true →
     left_tokens keep_rate (Z.of_nat N) = Ok (Z.of_nat left) →
     1 ≤ left < N - 1 →
     length x = N →
     attn_shaped attn N →
     ∃ x' kept compl,
       Block.reduce keep_rate N C x attn
         = Ok (x', Block.Reduced kept (Block.selection_trace kept) compl) ∧
       (∀ j, j ∈ kept → j ∉ compl) ∧
       (∀ j, j < N - 1 ↔ j ∈ kept ∨ j ∈ compl) ∧
       length kept + length compl = N - 1).
Proof.
  split.
  - intros idx dim Hidx. exists ((λ row, ascending_complement row dim) <$> idx).
    split; [by apply complement_idx_eq|].
    apply Forall2_fmap_r, Forall_Forall2_diag.
    eapply Forall_impl; [exact Hidx|]. intros row [Hnd Hin]. split_and!.
    + done.
    + apply ascending_complement_sorted.
    + apply elem_of_ascending_complement.
    + by apply ascending_complement_length.
  - intros R HR keep_rate N C x attn left Hk Hleft Hrange Hx Hattn.
    destruct (reduce_selection keep_rate N C x attn left Hk Hleft Hrange Hx Hattn)
      as (scores & x' & kept & compl & _ & _ & Hred & _ & -> & _ & Hnd & Hin).
    exists x', kept, (ascending_complement kept (N - 1)). split_and!.
    + done.
    + intros j Hj [_ Hnj]%elem_of_ascending_complement. done.
    + intros j. rewrite elem_of_ascending_complement.
      rewrite Forall_forall in Hin. specialize (Hin j).
      destruct (decide (j ∈ kept)); intuition lia.
    + by apply ascending_complement_length.
Qed.

(** The first part at an index tensor with one row that keeps index 0 and one
    that does not; the second part at a stage of six tokens with keep rate
    one half. *)
Lemma complement_idx_set_complement_witness :
  complement_idx [[0; 2]; [4; 1]] 5 = Ok [[1; 3; 4]; [0; 2; 3]]
  ∧ ∃ x' kept compl,
      Block.reduce (R := Z) 0x1p-1%float 6 1
        [[100]; [1]; [2]; [3]; [4]; [5]]%Z [[[9; 5; 7; 7; 1; 3]%Z]]
        = Ok (x', Block.Reduced kept (Block.selection_trace kept) compl)
      ∧ (∀ j, j ∈ kept → j ∉ compl)
      ∧ (∀ j, j < 6 - 1 ↔ j ∈ kept ∨ j ∈ compl)
      ∧ length kept + length compl = 6 - 1.
Proof.
  split.
  - destruct (proj1 complement_idx_set_complement [[0; 2]; [4; 1]] 5)
      as (compl & Heq & _).
    + apply (bool_decide_unpack _). by vm_compute.
    + rewrite Heq. f_equal. vm_compute in Heq. by injection Heq.
  - apply (proj2 complement_idx_set_complement Z _ 0x1p-1%float 6 1 _ _ 3).
    + reflexivity.
    + reflexivity.
    + lia.
    + reflexivity.
    + repeat constructor. by eexists.
Defined.

(** C9. The complement is an involution on index sets: for distinct kept
    indices below [dim] (at a stage, [dim = N - 1]) the complement of the
    complement holds exactly the kept indices, possibly in another order. *)
Theorem complement_idx_involution (kept_idx : list (list nat)) (dim : nat) :
  Forall (λ row, NoDup row ∧ Forall (λ i, i < dim) row) kept_idx →
  ∃ compl back,
    complement_idx kept_idx dim = Ok compl ∧
    complement_idx compl dim = Ok back ∧
    Forall2 (λ row b, (∀ j, j ∈ b ↔ j ∈ row) ∧ b ≡ₚ row) kept_idx back.
Proof.
  intros Hidx.
  exists ((λ row, ascending_complement row dim) <$> kept_idx),
         ((λ row, ascending_complement row dim) <$>
            ((λ row, ascending_complement row dim) <$> kept_idx)).
  split_and!.
  - by apply complement_idx_eq.
  - apply complement_idx_eq. apply Forall_fmap, Forall_forall. intros row _. simpl.
    split; [apply ascending_complement_NoDup|apply ascending_complement_range].
  - apply Forall2_fmap_r, Forall2_fmap_r, Forall_Forall2_diag.
    eapply Forall_impl; [exact Hidx|]. intros row [Hnd Hin].
    assert (Hset : ∀ j, j ∈ ascending_complement (ascending_complement row dim) dim ↔ j ∈ row).
    { intros j. rewrite !elem_of_ascending_complement.
      rewrite Forall_forall in Hin. specialize (Hin j).
      destruct (decide (j ∈ row)); intuition lia. }
    split; [done|].
    apply NoDup_Permutation; [apply ascending_complement_NoDup|done|done].
Qed.

Lemma complement_idx_involution_witness :
  ∃ compl back,
    complement_idx [[3; 0; 1]; [2; 4; 1]] 5 = Ok compl ∧
    complement_idx compl 5 = Ok back ∧
    Forall2 (λ row b, (∀ j, j ∈ b ↔ j ∈ row) ∧ b ≡ₚ row) [[3; 0; 1]; [2; 4; 1]] back.
Proof.
  apply (complement_idx_involution [[3; 0; 1]; [2; 4; 1]] 5).
  apply (bool_decide_unpack _). by vm_compute.
Defined.

(** The example of section 8: 196 non-prefix tokens at keep rate 0.7 leave 138. *)
Example left_tokens_example :
  left_tokens 0x1.6666666666666p-1%float 197 = Ok 138%Z.
Proof. reflexivity. Qed.

(** C1, as the code has it.  At a reducing stage (keep rate below 1 and
    [left] strictly between 0 and [N - 1]), whatever selector the library
    provides for [largest=True, sorted=True], the step keeps exactly
    [left = ceil(keep_rate × (N - 1))] indices of non-prefix tokens, the
    product taken in binary64; they are distinct, they are returned by
    descending score, and no discarded index has a larger score than a kept
    one; the discarded indices are the complement of the kept ones in
    [{0, ..., N-2}], in ascending order.  The order among equal scores is
    the selector's. *)
Theorem topk_selection_at_reducing_stage
    (R : Type) `{ScoreOrder R} (selector : list R → nat → result (list nat))
    keep_rate N C (x : list (list R)) attn left :
  largest_sorted selector →
  (keep_rate <? 1)%float = true →
  ceil_of_product keep_rate N left →
  1 ≤ left < N - 1 →
  length x = N →
  attn_shaped attn N →
  ∃ scores x' kept compl,
    cls_attention attn N = Ok scores ∧
    selector scores left = Ok kept ∧
    Block.reduce_with selector keep_rate N C x attn
      = Ok (x', Block.Reduced kept (Block.selection_trace kept) compl) ∧
    left_tokens keep_rate (Z.of_nat N) = Ok (Z.of_nat left) ∧
    length kept = left ∧
    NoDup kept ∧
    Forall (λ i, i < N - 1) kept ∧
    StronglySorted (not_below scores) kept ∧
    (∀ i j, i ∈ kept → j ∈ compl → not_below scores i j) ∧
    (∀ j, j ∈ compl ↔ j < N - 1 ∧ j ∉ kept) ∧
    StronglySorted lt compl.
Proof.
  intros Hsel Hk Hceil Hrange Hx Hattn.
  pose proof (ceil_of_product_left_tokens keep_rate N left Hceil) as Hleft.
  destruct (reduce_with_fires selector keep_rate N C x attn left
              Hsel Hk Hleft Hrange Hx Hattn)
    as (scores & kept & x_others & non_topk & non_topk_attn & Hs & Hlen & Hkept & Hkl
        & Hnd & Hin & Hsorted & Hdom & _ & _ & _ & Hred).
  cbv zeta in Hred.
  eexists scores, _, kept, (ascending_complement kept (N - 1)).
  split_and!; [done..| | |].
  - intros i j Hi [Hj Hnj]%elem_of_ascending_complement. by apply Hdom.
  - apply elem_of_ascending_complement.
  - apply ascending_complement_sorted.
Qed.

(** Six tokens, keep rate one half, class-token attention
    [5; 7; 7; 1; 3] over the five non-prefix tokens, the selector of
    section 4.2: the product is 2.5 and three indices are kept. *)
Lemma topk_selection_at_reducing_stage_witness :
  ∃ scores x' kept compl,
    cls_attention (R := Z) [[[9; 5; 7; 7; 1; 3]%Z]] 6 = Ok scores ∧
    topk scores 3 = Ok kept ∧
    Block.reduce_with topk 0x1p-1%float 6 1 [[100]; [1]; [2]; [3]; [4]; [5]]%Z
                 [[[9; 5; 7; 7; 1; 3]%Z]]
      = Ok (x', Block.Reduced kept (Block.selection_trace kept) compl) ∧
    left_tokens 0x1p-1%float (Z.of_nat 6) = Ok (Z.of_nat 3) ∧
    length kept = 3 ∧
    NoDup kept ∧
    Forall (λ i, i < 6 - 1) kept ∧
    StronglySorted (not_below scores) kept ∧
    (∀ i j, i ∈ kept → j ∈ compl → not_below scores i j) ∧
    (∀ j, j ∈ compl ↔ j < 6 - 1 ∧ j ∉ kept) ∧
    StronglySorted lt compl.
Proof.
  apply (topk_selection_at_reducing_stage Z topk).
  - apply largest_sorted_topk.
  - reflexivity.
  - eexists. split; [vm_compute; reflexivity|].
    split; vm_compute; [reflexivity|discriminate].
  - lia.
  - reflexivity.
  - repeat constructor. by eexists.
Defined.

(** C1 as stated fails: the order of equal scores is not fixed by the call.
    A selector that returns the largest scores in descending order, as
    [largest=True, sorted=True] asks, and of equal scores the later position
    first, keeps positions 3 and 2 of the scores [0; 0; 0; 1], where a
    stable descending sort keeps 3 and 0: the kept position 2 does not
    come before the discarded positions 0 and 1 of the same score in the
    original order. *)
Lemma topk_tie_order_counterexample :
  ∃ (selector : list Z → nat → result (list nat)) scores x' kept compl,
    largest_sorted selector ∧
    cls_attention (R := Z) [[[9; 0; 0; 0; 1]%Z]] 5 = Ok scores ∧
    scores = [0; 0; 0; 1]%Z ∧
    Block.reduce_with selector 0x1p-1%float 5 1 [[100]; [1]; [2]; [3]; [4]]%Z
                 [[[9; 0; 0; 0; 1]%Z]]
      = Ok (x', Block.Reduced kept (Block.selection_trace kept) compl) ∧
    kept = [3; 2] ∧ compl = [0; 1] ∧
    kept ≠ take 2 (ranking scores) ∧
    ¬ (∀ i j, i ∈ kept → j ∈ compl → rank_before scores i j).
Proof.
  exists topk_later_first, [0; 0; 0; 1]%Z, [[100]; [4]; [3]; [0]]%Z, [3; 2], [0; 1].
  split; [apply largest_sorted_later_first|].
  split; [reflexivity|]. split; [reflexivity|].
  split; [reflexivity|]. split; [reflexivity|]. split; [reflexivity|].
  split; [discriminate|].
  intros Hall. specialize (Hall 2 0).
  unfold rank_before in Hall. simpl in Hall.
  destruct Hall as [Hlt|[_ Hlt]].
  - apply list_elem_of_further, list_elem_of_here.
  - apply list_elem_of_here.
  - discriminate.
  - lia.
Qed.

(** The kept indices of that stage with the selector of section 4.2: the
    two tied scores come first, in position order. *)
Example topk_tie_example :
  Block.reduce (R := Z) 0x1p-1%float 6 1 [[100]; [1]; [2]; [3]; [4]; [5]]%Z
               [[[9; 5; 7; 7; 1; 3]%Z]]
  = Ok ([[100]; [2]; [3]; [1]; [19]]%Z, Block.Reduced [1; 2; 0] [1; 2; 0; -1]%Z [3; 4]).
Proof. reflexivity. Qed.

(** * The fused token *)

#[global] Instance Z_add_monoid : AddMonoid Z.
Proof. split; simpl; intros; lia. Qed.

#[global] Instance Q_add_monoid : AddMonoid Q.
Proof.
  split; simpl.
  - intros [n d]. unfold Qplus. simpl. f_equal. lia.
  - intros [n d]. unfold Qplus. simpl. f_equal; lia.
  - intros [n1 d1] [n2 d2] [n3 d3]. unfold Qplus. simpl. f_equal; lia.
Qed.

Section Fusion.
Context {R : Type} `{AddMonoid R}.
Implicit Types (acc row t : list R) (rows tokens : list (list R)) (scores : list R).







End Fusion.




(** The discarded positions and their scores at that stage. *)
Example fused_token_example :
  ∃ x' kept trace,
    Block.reduce (R := Q) 0x1p-1%float 7 2
      [[1; 1]; [1; 0]; [0; 1]; [1; 1]; [2; 0]; [0; 2]; [1; 2]]%Q
      [[[1; 3 # 10; 1 # 10; 1 # 5; 1 # 20; 1 # 4; 1 # 50]%Q]]
    = Ok (x', Block.Reduced kept trace [1; 3; 5]) ∧
    (s ← cls_attention (R := Q)
           [[[1; 3 # 10; 1 # 10; 1 # 5; 1 # 20; 1 # 4; 1 # 50]%Q]] 7;
     gather s [1; 3; 5]) = Ok [1 # 10; 1 # 20; 1 # 50]%Q.
Proof. vm_compute. eexists _, _, _. split; reflexivity. Qed.

(** * The reassembly *)




(** * [Block.forward] *)

Section ForwardFacts.
Context {R : Type} `{Scalar R}.
Implicit Types (blk : Block.t R) (x : list (list R)).

(** [forward] in terms of the outcome of the reduction. *)
Lemma forward_unfold blk x :
  Block.forward blk x =
  let y := tadd x (Block.attn_branch blk x).1 in
  '(z, vars) ← Block.reduce (Block.keep_rate blk) (length x) (channels x) y
                 (Block.attn_branch blk x).2;
  let x' := tadd z (Block.mlp_branch blk z) in
  match vars with
  | Block.Reduced _ idx compl =>
      Ok (x', (Z.of_nat (length x') - 1)%Z, Some idx, Some compl)
  | Block.NotBound => Raise UnboundLocalError
  | Block.IndexNone => Ok (x', (Z.of_nat (length x') - 1)%Z, None, None)
  end.
Proof. unfold Block.forward. by destruct (Block.attn_branch blk x). Qed.

Lemma tadd_length x (y : list (list R)) :
  length y = length x → length (tadd x y) = length x.
Proof. intros Hy. unfold tadd. rewrite length_zip_with. lia. Qed.
End ForwardFacts.

(** C7. At a stage whose keep rate is 1.0 the reduction is skipped: whatever
    the attention map, the step of lines 205-227 returns the sequence it was
    given, with [index = None] (neither scorer nor selector, fusion or
    reassembly ran, no token is removed and none is appended), and the stage
    returns [None] for the kept and for the discarded indices. *)
Theorem keep_rate_one_skips_reduction
    (R : Type) `{Scalar R} (blk : Block.t R) (x : list (list R)) :
  Block.keep_rate blk = 1%float →
  (∀ N C (y : list (list R)) attn,
     Block.reduce (Block.keep_rate blk) N C y attn = Ok (y, Block.IndexNone)) ∧
  (let y := tadd x (Block.attn_branch blk x).1 in
   let x' := tadd y (Block.mlp_branch blk y) in
   Block.forward blk x = Ok (x', (Z.of_nat (length x') - 1)%Z, None, None)).
Proof.
  intros Hk.
  assert (Hred : ∀ N C y attn,
    Block.reduce (Block.keep_rate blk) N C y attn = Ok (y, Block.IndexNone)).
  { intros. apply reduce_not_below_one. by rewrite Hk. }
  split; [done|]. simpl. rewrite forward_unfold. simpl. by rewrite Hred.
Qed.

Lemma keep_rate_one_skips_reduction_witness :
  let blk := Block.mk (R := Z) 1%float
               (λ x, (x, [[[9; 5; 7; 7; 1; 3]%Z]])) (λ x, x) in
  let x := [[100]; [1]; [2]; [3]; [4]; [5]]%Z in
  (∀ N C (y : list (list Z)) attn,
     Block.reduce (Block.keep_rate blk) N C y attn = Ok (y, Block.IndexNone)) ∧
  (let y := tadd x (Block.attn_branch blk x).1 in
   let x' := tadd y (Block.mlp_branch blk y) in
   Block.forward blk x = Ok (x', (Z.of_nat (length x') - 1)%Z, None, None)).
Proof.
  intros blk x. apply (keep_rate_one_skips_reduction Z blk x). reflexivity.
Defined.

(** C10, on the code.  When the keep rate is below 1 and
    [ceil(keep_rate * (N - 1))] equals [N - 1], no assignment to [index] is
    executed, and the test [index is not None] of line 232 raises
    [UnboundLocalError]: the stage does not return. *)
Theorem full_keep_below_one_raises
    (R : Type) `{Scalar R} (blk : Block.t R) (x : list (list R)) :
  (Block.keep_rate blk <? 1)%float = true →
  left_tokens (Block.keep_rate blk) (Z.of_nat (length x))
    = Ok (Z.of_nat (length x) - 1)%Z →
  Block.forward blk x = Raise UnboundLocalError.
Proof.
  intros Hk Hleft. rewrite forward_unfold. simpl.
  by rewrite reduce_all_left.
Qed.

(** Keep rate 0.99 on a sequence of eleven tokens: [ceil(0.99 * 10) = 10]. *)
Lemma full_keep_below_one_raises_witness :
  left_tokens 0x1.fae147ae147aep-1%float 11 = Ok 10%Z ∧
  Block.forward
    (Block.mk (R := Z) 0x1.fae147ae147aep-1%float
       (λ x, (x, [[replicate 11 1%Z]])) (λ x, x))
    (replicate 11 [0%Z])
  = Raise UnboundLocalError.
Proof.
  split; [reflexivity|].
  apply (full_keep_below_one_raises Z); reflexivity.
Defined.

(** * Sequence lengths through the stages *)

Section Lengths.
Context {R : Type} `{Scalar R} `{TensorLibrary}.
Implicit Types (blk : Block.t R) (x : list (list R)) (m : EViT.t R)
  (st : EViT.state R).

Lemma forward_stage_length blk x N' :
  block_shaped blk →
  stage_length (Block.keep_rate blk) (length x) = Some N' →
  ∃ x' n idx compl,
    Block.forward blk x = Ok (x', n, idx, compl) ∧ length x' = N'.
Proof.
  intros Hshape Hlen. rewrite forward_unfold. simpl.
  destruct (Hshape x) as (Htmp & Hattn & _). simpl in Htmp, Hattn.
  set (y := tadd x (Block.attn_branch blk x).1).
  assert (Hy : length y = length x) by by apply tadd_length.
  unfold stage_length in Hlen.
  destruct (Block.keep_rate blk <? 1)%float eqn:Hk.
  - destruct (left_tokens (Block.keep_rate blk) (Z.of_nat (length x)))
      as [k|] eqn:Hleft; [|done].
    case_decide as Hrange; [|done]. injection Hlen as <-.
    rewrite <- (Z2Nat.id k) in Hleft by lia.
    destruct (reduce_fires (Block.keep_rate blk) (length x) (channels x) y
                (Block.attn_branch blk x).2 (Z.to_nat k))
      as (scores & x_others & non_topk & non_topk_attn & _ & Hsl & Hf1 & _ & _ & Hred);
      [done|done|lia|done|done|].
    simpl in Hred. rewrite Hred. simpl.
    eexists _, _, _, _. split; [done|].
    destruct (Hshape (take 1 y ++ x_others ++
                      [Block.fuse (channels x) non_topk non_topk_attn]))
      as (_ & _ & Hmlp). simpl in Hmlp.
    rewrite tadd_length by done.
    apply Forall2_length in Hf1. rewrite topk_length in Hf1 by lia.
    rewrite !length_app, length_take, Hy, <- Hf1. cbn [length]. lia.
  - injection Hlen as <-.
    rewrite reduce_not_below_one by done. simpl.
    eexists _, _, _, _. split; [done|].
    destruct (Hshape y) as (_ & _ & Hmlp). simpl in Hmlp.
    by rewrite tadd_length.
Qed.

Lemma cache_step_disabled m i st :
  EViT.clc m = false → EViT.cache_step m i st = Ok st.
Proof.
  intros Hclc. unfold EViT.cache_step, EViT.recover, EViT.accumulate.
  by rewrite Hclc.
Qed.

Lemma stages_length_trajectory m blks : ∀ i st lens,
  EViT.clc m = false →
  Forall block_shaped blks →
  length_trajectory (Block.keep_rate <$> blks) (length (EViT.x st)) = Some lens →
  ∃ sts, EViT.stages m i blks st = Ok sts ∧
         (λ s, length (EViT.x s)) <$> sts = lens.
Proof.
  induction blks as [|blk blks IH]; intros i st lens Hclc Hshape Htraj.
  - injection Htraj as <-. by exists [].
  - apply Forall_cons in Hshape as [Hblk Hshape].
    rewrite fmap_cons in Htraj. cbn [length_trajectory] in Htraj.
    destruct (stage_length (Block.keep_rate blk) (length (EViT.x st)))
      as [N'|] eqn:HN'; [|done]. cbn [mbind option_bind] in Htraj.
    destruct (length_trajectory (Block.keep_rate <$> blks) N')
      as [rest|] eqn:Hrest; [|done]. injection Htraj as <-.
    cbn [EViT.stages].
    destruct (forward_stage_length blk (EViT.x st) N' Hblk HN')
      as (x' & n & idx & compl & Hfwd & Hx').
    unfold EViT.stage. rewrite Hfwd. simpl.
    rewrite cache_step_disabled by done. simpl.
    destruct (IH (i + 1)%Z (EViT.mk_state x' (EViT.cross_layer_cache st)
                              (EViT.curr_num_pool st)) rest)
      as (sts & Hsts & Hlens); [done|done|by simpl; rewrite Hx'|].
    rewrite Hsts. simpl. eexists. split; [done|].
    rewrite fmap_cons, Hlens. simpl. by rewrite Hx'.
Qed.
End Lengths.

(** C5. With depth 12, reduction at stages 3, 6 and 9, keep rate 0.9 at each
    of them and a sequence of 197 tokens (one prefix token), stage 3 keeps
    [ceil(0.9 * 196) = 177] non-prefix tokens and leaves 179 tokens, stage 6
    keeps 161 and leaves 163, stage 9 keeps 146 and leaves 148; every other
    stage leaves the length unchanged. *)
Theorem sequence_length_trajectory
    (R : Type) `{Scalar R} `{TensorLibrary}
    (sublayers : nat → (list (list R) → list (list R) * list (list (list R)))
                       * (list (list R) → list (list R)))
    (x : list (list R)) :
  (∀ i, branches_shaped (sublayers i)) →
  length x = 197 →
  left_tokens 0x1.ccccccccccccdp-1%float 197 = Ok 177%Z ∧
  left_tokens 0x1.ccccccccccccdp-1%float 179 = Ok 161%Z ∧
  left_tokens 0x1.ccccccccccccdp-1%float 163 = Ok 146%Z ∧
  ∃ m sts,
    EViT.__init__ 12 sublayers trajectory_args = Ok m ∧
    EViT.forward_stages m x = Ok sts ∧
    (λ s, length (EViT.x s)) <$> sts
    = [197; 197; 197; 179; 179; 179; 163; 163; 163; 148; 148; 148].
Proof.
  intros Hshape Hx. split_and!; [reflexivity..|].
  assert (Hinit : ∃ m : EViT.t R,
    EViT.__init__ 12 sublayers trajectory_args = Ok m ∧
    EViT.clc m = false ∧
    Block.keep_rate <$> EViT.blocks m
    = [1; 1; 1; 0x1.ccccccccccccdp-1; 1; 1; 0x1.ccccccccccccdp-1; 1; 1;
       0x1.ccccccccccccdp-1; 1; 1]%float ∧
    Forall block_shaped (EViT.blocks m)).
  { eexists. split; [vm_compute; reflexivity|]. split_and!; [reflexivity..|].
    repeat (constructor; [intros y; apply (Hshape _ y)|]). constructor. }
  destruct Hinit as (m & Hm & Hclc & Hrates & Hblocks).
  destruct (stages_length_trajectory m (EViT.blocks m) 0%Z (EViT.initial_state m x)
              [197; 197; 197; 179; 179; 179; 163; 163; 163; 148; 148; 148])
    as (sts & Hsts & Hlens); [done|done| |].
  - rewrite Hrates. unfold EViT.initial_state. cbn [EViT.x]. rewrite Hx.
    reflexivity.
  - by exists m, sts.
Qed.

Lemma uniform_branches_shaped (i : nat) : branches_shaped (uniform_sublayers i).
Proof.
  intros x. simpl. split_and!; [done| |done].
  repeat constructor. eexists. split; [done|]. by rewrite length_replicate.
Qed.

(** The trajectory on 197 zero tokens through these sublayers. *)
Lemma sequence_length_trajectory_witness :
  left_tokens 0x1.ccccccccccccdp-1%float 197 = Ok 177%Z ∧
  left_tokens 0x1.ccccccccccccdp-1%float 179 = Ok 161%Z ∧
  left_tokens 0x1.ccccccccccccdp-1%float 163 = Ok 146%Z ∧
  ∃ m sts,
    EViT.__init__ 12 uniform_sublayers trajectory_args = Ok m ∧
    EViT.forward_stages m (replicate 197 [0%Z]) = Ok sts ∧
    (λ s, length (EViT.x s)) <$> sts
    = [197; 197; 197; 179; 179; 179; 163; 163; 163; 148; 148; 148].
Proof.
  apply (sequence_length_trajectory Z).
  - exact uniform_branches_shaped.
  - reflexivity.
Defined.

(** * The constructor *)

Lemma mapM_Raise {A B} (f : A → result B) (l : list A) (e : error) (a : A) :
  a ∈ l → f a = Raise e →
  Forall (λ b, f b = Raise e ∨ ∃ c, f b = Ok c) l →
  mapM f l = Raise e.
Proof.
  intros Ha Hfa Hall. induction Hall as [|b l [Hb|[c Hb]] _ IH]; simpl.
  - by apply elem_of_nil in Ha.
  - by rewrite Hb.
  - rewrite Hb. simpl. apply elem_of_cons in Ha as [->|Ha]; [congruence|].
    by rewrite IH.
Qed.

Lemma list_setitem_length {A} (l l' : list A) (i : Z) (v : A) :
  list_setitem l i v = Ok l' → length l' = length l.
Proof.
  unfold list_setitem. repeat case_decide; intros [= <-]; apply length_insert.
Qed.

Lemma list_setitem_in_range {A} (l : list A) (i : Z) (v : A) :
  (0 ≤ i < Z.of_nat (length l))%Z →
  list_setitem l i v = Ok (<[Z.to_nat i := v]> l).
Proof. intros Hi. unfold list_setitem. by rewrite decide_True. Qed.

Lemma assign_ratios_length schedule : ∀ full full',
  EViT.assign_ratios full schedule = Ok full' → length full' = length full.
Proof.
  induction schedule as [|[loc r] schedule IH]; intros full full'; simpl.
  - by intros [= <-].
  - destruct (list_setitem full loc r) as [full1|] eqn:Hset; simpl; [|done].
    intros Hrest%IH. rewrite Hrest. by eapply list_setitem_length.
Qed.

Lemma assign_ratios_distinct schedule : ∀ full,
  NoDup (schedule.*1) →
  Forall (λ loc, 0 ≤ loc < Z.of_nat (length full))%Z (schedule.*1) →
  ∃ full',
    EViT.assign_ratios full schedule = Ok full' ∧
    (∀ loc r, (loc, r) ∈ schedule → full' !! Z.to_nat loc = Some r) ∧
    (∀ j, Z.of_nat j ∉ schedule.*1 → full' !! j = full !! j).
Proof.
  induction schedule as [|[loc r] schedule IH]; intros full Hnd Hin.
  - exists full. split_and!; [done| |done]. by intros ?? ?%elem_of_nil.
  - rewrite fmap_cons in Hnd, Hin. simpl in Hnd, Hin.
    apply NoDup_cons in Hnd as [Hloc Hnd]. apply Forall_cons in Hin as [Hl Hin].
    cbn [EViT.assign_ratios]. rewrite list_setitem_in_range by done. simpl.
    destruct (IH (<[Z.to_nat loc := r]> full)) as (full' & Hfull' & Hset & Hkeep);
      [done|by rewrite length_insert|].
    exists full'. split_and!; [done| |].
    + intros loc' r' [[= -> ->]|Hin']%elem_of_cons; [|by apply Hset].
      rewrite Hkeep by (rewrite Z2Nat.id by lia; done).
      apply list_lookup_insert_eq. lia.
    + intros j Hj. apply not_elem_of_cons in Hj as [Hne Hj].
      rewrite Hkeep by done. apply list_lookup_insert_ne. lia.
Qed.

Section Construction.
Context {R : Type} `{Scalar R}.
Implicit Types
  (sublayers : nat → (list (list R) → list (list R) * list (list (list R)))
                     * (list (list R) → list (list R)))
  (a : EViT.args).

Lemma broadcast_ratio_not_single (token_ratio : list float) (reduction_loc : list Z) :
  length token_ratio ≠ 1 → EViT.broadcast_ratio token_ratio reduction_loc = token_ratio.
Proof. by destruct token_ratio as [|r [|]]. Qed.

Lemma init_length_mismatch depth sublayers a :
  length (EViT.arg_keep_rate a) ≠ length (EViT.arg_reduction_loc a) →
  length (EViT.arg_keep_rate a) ≠ 1 →
  EViT.__init__ depth sublayers a = Raise AssertionError.
Proof.
  intros Hne Hsingle. unfold EViT.__init__. cbv zeta.
  rewrite broadcast_ratio_not_single by done.
  by rewrite (bool_decide_eq_false_2 _ Hne).
Qed.

Lemma init_invalid_rate depth sublayers a full r :
  length (EViT.broadcast_ratio (EViT.arg_keep_rate a) (EViT.arg_reduction_loc a))
    = length (EViT.arg_reduction_loc a) →
  EViT.token_ratio_full depth (EViT.arg_reduction_loc a)
    (EViT.broadcast_ratio (EViT.arg_keep_rate a) (EViT.arg_reduction_loc a)) = Ok full →
  r ∈ full → Block.valid_rate r = false →
  EViT.__init__ depth sublayers a = Raise AssertionError.
Proof.
  intros Hlen Hfull Hr Hbad. unfold EViT.__init__. cbv zeta.
  rewrite (bool_decide_eq_true_2 _ Hlen). simpl. rewrite Hfull. simpl.
  assert (Hdepth : length full = depth).
  { apply assign_ratios_length in Hfull. by rewrite length_replicate in Hfull. }
  apply list_elem_of_lookup_1 in Hr as [i Hi].
  rewrite (mapM_Raise _ _ AssertionError (i, r)); [done| | |].
  - apply list_elem_of_lookup_2 with i. apply lookup_zip_with_Some.
    exists i, r. split_and!; [done| |done].
    apply lookup_seq_lt. apply lookup_lt_Some in Hi. lia.
  - unfold Block.__init__. simpl. by rewrite Hbad.
  - apply Forall_forall. intros [j q] _. unfold Block.__init__. simpl.
    destruct (Block.valid_rate q); simpl; eauto.
Qed.

Lemma init_distinct_locations depth sublayers a r :
  NoDup (EViT.arg_reduction_loc a) →
  Forall (λ loc, 0 ≤ loc < Z.of_nat depth)%Z (EViT.arg_reduction_loc a) →
  length (EViT.broadcast_ratio (EViT.arg_keep_rate a) (EViT.arg_reduction_loc a))
    = length (EViT.arg_reduction_loc a) →
  r ∈ EViT.broadcast_ratio (EViT.arg_keep_rate a) (EViT.arg_reduction_loc a) →
  Block.valid_rate r = false →
  EViT.__init__ depth sublayers a = Raise AssertionError.
Proof.
  intros Hnd Hin Hlen Hr Hbad.
  set (tr := EViT.broadcast_ratio _ _) in *.
  destruct (assign_ratios_distinct (zip (EViT.arg_reduction_loc a) tr)
              (replicate depth 1%float)) as (full & Hfull & Hset & _).
  { rewrite fst_zip by lia. done. }
  { rewrite fst_zip by lia. by rewrite length_replicate. }
  apply list_elem_of_lookup_1 in Hr as [i Hi].
  destruct (lookup_lt_is_Some_2 (EViT.arg_reduction_loc a) i) as [loc Hloc].
  { apply lookup_lt_Some in Hi. lia. }
  apply (init_invalid_rate depth sublayers a full r); [done|done| |done].
  apply list_elem_of_lookup_2 with (Z.to_nat loc). apply Hset.
  apply list_elem_of_lookup_2 with i. apply lookup_zip_with_Some. eauto.
Qed.

Lemma elem_of_broadcast_ratio (token_ratio : list float) (reduction_loc : list Z) r :
  reduction_loc ≠ [] → r ∈ token_ratio →
  r ∈ EViT.broadcast_ratio token_ratio reduction_loc.
Proof.
  intros Hloc Hr. destruct token_ratio as [|r0 [|r1 token_ratio]]; [done| |done].
  apply list_elem_of_singleton in Hr as ->. simpl.
  destruct reduction_loc; [done|]. simpl. apply list_elem_of_here.
Qed.

Lemma init_any_rate depth sublayers a r :
  NoDup (EViT.arg_reduction_loc a) →
  Forall (λ loc, 0 ≤ loc < Z.of_nat depth)%Z (EViT.arg_reduction_loc a) →
  EViT.arg_reduction_loc a ≠ [] →
  r ∈ EViT.arg_keep_rate a →
  Block.valid_rate r = false →
  EViT.__init__ depth sublayers a = Raise AssertionError.
Proof.
  intros Hnd Hin Hloc Hr Hbad.
  destruct (decide (length (EViT.broadcast_ratio (EViT.arg_keep_rate a)
                              (EViT.arg_reduction_loc a))
                    = length (EViT.arg_reduction_loc a))) as [Hlen|Hlen].
  - apply init_distinct_locations with r; [done..| |done].
    by apply elem_of_broadcast_ratio.
  - unfold EViT.__init__. cbv zeta. by rewrite (bool_decide_eq_false_2 _ Hlen).
Qed.

Lemma init_cache_without_carrier depth sublayers a :
  EViT.arg_clc a = true → EViT.arg_num_clr a = 0%Z →
  EViT.arg_clc_include_gap a = false →
  is_error (EViT.__init__ depth sublayers a).
Proof.
  intros Hclc Hclr Hgap. unfold EViT.__init__. cbv zeta.
  rewrite Hclc, Hclr, Hgap.
  do 3 (match goal with
        | |- is_error (?m ≫= _) => destruct m; [cbn [mbind result_bind]|exact I]
        end).
  exact I.
Qed.
End Construction.

(** C8, as the code has it.  The configuration is checked by the constructor:
    it fails when the rates and the locations differ in number and there is
    not exactly one rate; when a rate that ends up in the per-stage schedule
    is outside (0, 1]; hence when any configured rate is outside (0, 1] and
    the locations are distinct stages in [0, depth), at least one of them;
    and when the cache is enabled with [num_clr = 0] and without the pooled
    carrier. *)
Theorem construction_validates_configuration
    (R : Type) `{Scalar R} (depth : nat)
    (sublayers : nat → (list (list R) → list (list R) * list (list (list R)))
                       * (list (list R) → list (list R)))
    (a : EViT.args) :
  let token_ratio :=
    EViT.broadcast_ratio (EViT.arg_keep_rate a) (EViT.arg_reduction_loc a) in
  (length (EViT.arg_keep_rate a) ≠ length (EViT.arg_reduction_loc a) →
   length (EViT.arg_keep_rate a) ≠ 1 →
   EViT.__init__ depth sublayers a = Raise AssertionError)
  ∧
  (∀ full r,
     length token_ratio = length (EViT.arg_reduction_loc a) →
     EViT.token_ratio_full depth (EViT.arg_reduction_loc a) token_ratio = Ok full →
     r ∈ full → Block.valid_rate r = false →
     EViT.__init__ depth sublayers a = Raise AssertionError)
  ∧
  (∀ r,
     NoDup (EViT.arg_reduction_loc a) →
     Forall (λ loc, 0 ≤ loc < Z.of_nat depth)%Z (EViT.arg_reduction_loc a) →
     EViT.arg_reduction_loc a ≠ [] →
     r ∈ EViT.arg_keep_rate a → Block.valid_rate r = false →
     EViT.__init__ depth sublayers a = Raise AssertionError)
  ∧
  (EViT.arg_clc a = true → EViT.arg_num_clr a = 0%Z →
   EViT.arg_clc_include_gap a = false →
   is_error (EViT.__init__ depth sublayers a)).
Proof.
  simpl. split_and!.
  - apply init_length_mismatch.
  - intros full r. apply init_invalid_rate.
  - intros r. apply init_any_rate.
  - apply init_cache_without_carrier.
Qed.

(** Two rates for three locations; a rate of 1.5 at stage 6, and the same
    rate given once and broadcast; the cache without any carrier. *)
Lemma construction_validates_configuration_witness :
  EViT.__init__ 12 uniform_sublayers
    (EViT.mk_args [0x1p-1; 0x1p-1]%float [3; 6; 9]%Z false false false false false 0)
  = Raise AssertionError
  ∧ EViT.__init__ 12 uniform_sublayers
      (EViT.mk_args [0x1p-1; 0x1.8p0; 0x1p-1]%float [3; 6; 9]%Z
         false false false false false 0)
    = Raise AssertionError
  ∧ EViT.__init__ 12 uniform_sublayers
      (EViT.mk_args [0x1.8p0]%float [3; 6; 9]%Z false false false false false 0)
    = Raise AssertionError
  ∧ is_error (EViT.__init__ 12 uniform_sublayers
      (EViT.mk_args [0x1p-1]%float [3; 6; 9]%Z true false false false false 0)).
Proof.
  split_and!.
  - apply (construction_validates_configuration Z 12 uniform_sublayers
             (EViT.mk_args [0x1p-1; 0x1p-1]%float [3; 6; 9]%Z
                false false false false false 0)); simpl; lia.
  - apply (proj1 (proj2 (construction_validates_configuration Z 12 uniform_sublayers
             (EViT.mk_args [0x1p-1; 0x1.8p0; 0x1p-1]%float [3; 6; 9]%Z
                false false false false false 0)))
             [1; 1; 1; 0x1p-1; 1; 1; 0x1.8p0; 1; 1; 0x1p-1; 1; 1]%float
             0x1.8p0%float).
    + reflexivity.
    + reflexivity.
    + do 6 apply list_elem_of_further. apply list_elem_of_here.
    + reflexivity.
  - apply (proj1 (proj2 (proj2 (construction_validates_configuration Z 12
             uniform_sublayers
             (EViT.mk_args [0x1.8p0]%float [3; 6; 9]%Z
                false false false false false 0)))) 0x1.8p0%float).
    + apply (bool_decide_unpack _). by vm_compute.
    + apply (bool_decide_unpack _). by vm_compute.
    + discriminate.
    + apply list_elem_of_here.
    + reflexivity.
  - apply (construction_validates_configuration Z 12 uniform_sublayers
             (EViT.mk_args [0x1p-1]%float [3; 6; 9]%Z
                true false false false false 0)); reflexivity.
Defined.

(** C8 as stated fails.  A rate of 1.5 that a later entry for the same stage
    overwrites, and a single rate of 1.5 broadcast over no location, are
    never checked; a negative [num_clr] passes the carrier check. *)
Lemma construction_unchecked_counterexample :
  (0x1.8p0%float ∈ [0x1.8p0; 0x1p-1]%float ∧
   Block.valid_rate 0x1.8p0 = false ∧
   ¬ is_error (EViT.__init__ 12 uniform_sublayers
       (EViT.mk_args [0x1.8p0; 0x1p-1]%float [3; 3]%Z
          false false false false false 0)))
  ∧ ¬ is_error (EViT.__init__ 12 uniform_sublayers
       (EViT.mk_args [0x1.8p0]%float [] false false false false false 0))
  ∧ ¬ is_error (EViT.__init__ 12 uniform_sublayers
       (EViT.mk_args [0x1p-1]%float [3; 6; 9]%Z true false false false false (-1))).
Proof.
  split_and!; [apply list_elem_of_here|reflexivity|..]; vm_compute; tauto.
Qed.

(** * The cross-layer cache *)

Section Cache.
Context {R : Type} `{Scalar R} `{TensorLibrary}.
Implicit Types (m : EViT.t R) (st : EViT.state R) (i final : Z).

Lemma torch_cat_nonempty {A} (tensors : list (list A)) :
  tensors ≠ [] → torch_cat tensors = Ok (concat tensors).
Proof. by destruct tensors. Qed.

Lemma carriers_Ok m st :
  EViT.clc_include_gap m = true ∨ is_Some (EViT.clr m) →
  ∃ entry, EViT.carriers m st = Ok entry.
Proof.
  intros Hsrc. unfold EViT.carriers. eexists. apply torch_cat_nonempty.
  destruct Hsrc as [->|[k ->]]; [done|].
  by destruct (EViT.clc_include_gap m).
Qed.

Lemma recover_listed m i st :
  EViT.clc m = true → i ∈ EViT.recovery_layers m →
  EViT.cross_layer_cache st ≠ [] →
  EViT.recover m i st
  = Ok (EViT.mk_state (EViT.x st ++ concat (EViT.cross_layer_cache st)) []
          (length (EViT.x st))).
Proof.
  intros Hclc Hi Hcache. unfold EViT.recover.
  rewrite Hclc, bool_decide_eq_true_2 by done. simpl.
  by rewrite torch_cat_nonempty.
Qed.

Lemma recover_not_listed m i st :
  i ∉ EViT.recovery_layers m → EViT.recover m i st = Ok st.
Proof.
  intros Hi. unfold EViT.recover.
  rewrite bool_decide_eq_false_2 by done. by rewrite andb_false_r.
Qed.

Lemma accumulate_before_final m i final st :
  EViT.clc m = true → last (EViT.recovery_layers m) = Some final →
  EViT.clc_include_gap m = true ∨ is_Some (EViT.clr m) →
  (i < final)%Z →
  ∃ entry, EViT.accumulate m i st
           = Ok (EViT.mk_state (EViT.x st) (EViT.cross_layer_cache st ++ [entry])
                   (EViT.curr_num_pool st)).
Proof.
  intros Hclc Hlast Hsrc Hi. unfold EViT.accumulate.
  rewrite Hclc, Hlast.
  replace (i <? final)%Z with true by (symmetry; by apply Z.ltb_lt).
  destruct (carriers_Ok m st Hsrc) as [entry ->]. by exists entry.
Qed.

Lemma accumulate_carrier m i final st :
  EViT.clc m = true → last (EViT.recovery_layers m) = Some final →
  EViT.clc_include_gap m = true ∨ is_Some (EViT.clr m) →
  (i < final)%Z →
  ∃ entry, EViT.carriers m st = Ok entry ∧
           EViT.accumulate m i st
           = Ok (EViT.mk_state (EViT.x st) (EViT.cross_layer_cache st ++ [entry])
                   (EViT.curr_num_pool st)).
Proof.
  intros Hclc Hlast Hsrc Hi. unfold EViT.accumulate.
  rewrite Hclc, Hlast.
  replace (i <? final)%Z with true by (symmetry; by apply Z.ltb_lt).
  destruct (carriers_Ok m st Hsrc) as [entry Hentry]. rewrite Hentry.
  by exists entry.
Qed.

Lemma accumulate_from_final m i final st :
  EViT.clc m = true → last (EViT.recovery_layers m) = Some final →
  (final ≤ i)%Z →
  EViT.accumulate m i st = Ok st.
Proof.
  intros Hclc Hlast Hi. unfold EViT.accumulate.
  rewrite Hclc, Hlast.
  by replace (i <? final)%Z with false by (symmetry; by apply Z.ltb_ge).
Qed.
End Cache.

(** C6, as the code has it.  With the cache enabled, a stage listed in
    [recovery_layers] appends all buffered entries, in the order of their
    accumulation, to the sequence, clears the buffer and sets the pooling
    window to the length the sequence had before; the accumulation of the
    same stage then runs on that state, so that after the stage the buffer
    holds exactly the carrier entry computed from the extended sequence when
    the stage precedes the last recovery layer, and is empty otherwise.  At
    a stage that is not listed the sequence and the pooling window are left
    as they are and the buffer is only appended to: by the carrier entry of
    the stage before the last recovery layer, by nothing from then on. *)
Theorem cache_recovery_and_accumulation
    (R : Type) `{Scalar R} `{TensorLibrary} (m : EViT.t R) (i final : Z)
    (st : EViT.state R) :
  EViT.clc m = true →
  last (EViT.recovery_layers m) = Some final →
  EViT.clc_include_gap m = true ∨ is_Some (EViT.clr m) →
  (i ∈ EViT.recovery_layers m → EViT.cross_layer_cache st ≠ [] →
   let recovered :=
     EViT.mk_state (EViT.x st ++ concat (EViT.cross_layer_cache st)) []
       (length (EViT.x st)) in
   ∃ st', EViT.cache_step m i st = Ok st' ∧
     EViT.x st' = EViT.x st ++ concat (EViT.cross_layer_cache st) ∧
     EViT.curr_num_pool st' = length (EViT.x st) ∧
     ((i < final)%Z →
      ∃ entry, EViT.carriers m recovered = Ok entry ∧
               EViT.cross_layer_cache st' = [entry]) ∧
     ((final ≤ i)%Z → EViT.cross_layer_cache st' = []))
  ∧
  (i ∉ EViT.recovery_layers m →
   ∃ st', EViT.cache_step m i st = Ok st' ∧
     EViT.x st' = EViT.x st ∧
     EViT.curr_num_pool st' = EViT.curr_num_pool st ∧
     length (EViT.cross_layer_cache st) ≤ length (EViT.cross_layer_cache st') ∧
     ((i < final)%Z →
      ∃ entry, EViT.carriers m st = Ok entry ∧
               EViT.cross_layer_cache st' = EViT.cross_layer_cache st ++ [entry]) ∧
     ((final ≤ i)%Z → EViT.cross_layer_cache st' = EViT.cross_layer_cache st)).
Proof.
  intros Hclc Hlast Hsrc. split.
  - intros Hi Hcache recovered. unfold EViT.cache_step.
    rewrite recover_listed by done. cbn [mbind result_bind]. fold recovered.
    destruct (decide (i < final)%Z) as [Hlt|Hge].
    + destruct (accumulate_carrier m i final recovered Hclc Hlast Hsrc Hlt)
        as (entry & Hentry & ->).
      eexists. split_and!; [done|done|done| |]; simpl.
      * intros _. by exists entry.
      * lia.
    + rewrite (accumulate_from_final m i final) by (done || lia).
      eexists. split_and!; [done|done|done| |]; simpl; [lia|done].
  - intros Hi. unfold EViT.cache_step.
    rewrite recover_not_listed by done. cbn [mbind result_bind].
    destruct (decide (i < final)%Z) as [Hlt|Hge].
    + destruct (accumulate_carrier m i final st Hclc Hlast Hsrc Hlt)
        as (entry & Hentry & ->).
      eexists. split_and!; [done|done|done| | |]; simpl.
      * rewrite length_app. lia.
      * intros _. by exists entry.
      * lia.
    + rewrite (accumulate_from_final m i final) by (done || lia).
      eexists. split_and!; [done|done|done|done| |]; [lia|done].
Qed.

(** Stage 3 of the schedule [3; 6; 9] with three buffered entries, and stage
    4 right after it. *)
Lemma cache_recovery_and_accumulation_witness :
  let st := EViT.mk_state [[1]; [2]; [3]]%Z [[[10%Z]]; [[11%Z]]; [[12%Z]]] 3 in
  (3%Z ∈ EViT.recovery_layers cache_model → EViT.cross_layer_cache st ≠ [] →
   let recovered :=
     EViT.mk_state (EViT.x st ++ concat (EViT.cross_layer_cache st)) []
       (length (EViT.x st)) in
   ∃ st', EViT.cache_step cache_model 3 st = Ok st' ∧
     EViT.x st' = EViT.x st ++ concat (EViT.cross_layer_cache st) ∧
     EViT.curr_num_pool st' = length (EViT.x st) ∧
     ((3 < 9)%Z →
      ∃ entry, EViT.carriers cache_model recovered = Ok entry ∧
               EViT.cross_layer_cache st' = [entry]) ∧
     ((9 ≤ 3)%Z → EViT.cross_layer_cache st' = []))
  ∧
  (3%Z ∉ EViT.recovery_layers cache_model →
   ∃ st', EViT.cache_step cache_model 3 st = Ok st' ∧
     EViT.x st' = EViT.x st ∧
     EViT.curr_num_pool st' = EViT.curr_num_pool st ∧
     length (EViT.cross_layer_cache st) ≤ length (EViT.cross_layer_cache st') ∧
     ((3 < 9)%Z →
      ∃ entry, EViT.carriers cache_model st = Ok entry ∧
               EViT.cross_layer_cache st' = EViT.cross_layer_cache st ++ [entry]) ∧
     ((9 ≤ 3)%Z → EViT.cross_layer_cache st' = EViT.cross_layer_cache st)).
Proof.
  intros st. apply (cache_recovery_and_accumulation Z cache_model 3 9 st).
  - reflexivity.
  - reflexivity.
  - left. reflexivity.
Defined.

(** The run of that stage: the three buffered tokens are appended, and the
    buffer then holds the mean of the tokens after the first one within the
    window of three, which is the carrier of the extended sequence. *)
Example cache_recovery_stage_example :
  EViT.cache_step cache_model 3
    (EViT.mk_state [[1]; [2]; [3]]%Z [[[10%Z]]; [[11%Z]]; [[12%Z]]] 3)
  = Ok (EViT.mk_state [[1]; [2]; [3]; [10]; [11]; [12]]%Z [[[2%Z]]] 3).
Proof. reflexivity. Qed.

(** C6 as stated fails: in the end-to-end example with the cache enabled,
    stage 3 is a recovery stage, and at its end the buffer holds the carrier
    entry that the same iteration appended after the reset. *)
Lemma cache_after_recovery_counterexample :
  ∃ m sts st3,
    EViT.__init__ 12 uniform_sublayers cache_args = Ok m ∧
    EViT.forward_stages m (replicate 197 [0%Z]) = Ok sts ∧
    3%Z ∈ EViT.recovery_layers m ∧
    sts !! 3 = Some st3 ∧
    EViT.cross_layer_cache st3 ≠ [] ∧
    (λ s, length (EViT.cross_layer_cache s)) <$> sts
    = [1; 2; 3; 1; 2; 3; 1; 2; 3; 0; 0; 0].
Proof.
  eexists _, _, _. split; [vm_compute; reflexivity|].
  split; [vm_compute; reflexivity|].
  split_and!.
  - simpl. apply list_elem_of_here.
  - reflexivity.
  - discriminate.
  - reflexivity.
Qed.

(** * [complement_idx] outside its intended inputs *)

Section ComplementEdges.
Implicit Types (idx a row : list nat) (dim : nat).

Lemma scatter_out_of_range idx : ∀ a v,
  Exists (λ i, length a ≤ i) idx → scatter a idx v = Raise RuntimeError.
Proof.
  induction idx as [|i idx IH]; intros a v Hex; [by apply Exists_nil in Hex|].
  cbn [scatter]. case_decide as Hi; [|done].
  apply IH. rewrite length_insert.
  apply Exists_cons in Hex as [Hex|Hex]; [lia|done].
Qed.

Lemma complement_idx_row_out_of_range idx dim :
  Exists (λ i, dim ≤ i) idx → complement_idx_row idx dim = Raise RuntimeError.
Proof.
  intros Hex. unfold complement_idx_row.
  rewrite scatter_out_of_range; [done|]. by rewrite length_seq.
Qed.

Lemma kept_positions_remove_dups idx dim :
  Forall (λ i, i < dim) idx →
  filter (λ j, j ∈ idx) (seq 0 dim) ≡ₚ remove_dups idx.
Proof.
  intros Hin. apply NoDup_Permutation.
  - apply NoDup_filter, NoDup_seq.
  - apply NoDup_remove_dups.
  - intros j. rewrite list_elem_of_filter, elem_of_seq, elem_of_remove_dups.
    rewrite Forall_forall in Hin. split; [tauto|]. intros Hj.
    specialize (Hin j Hj). split; [done|lia].
Qed.

Lemma masked_perm_dups idx dim :
  Forall (λ i, i < dim) idx →
  zero_kept idx <$> seq 0 dim
  ≡ₚ replicate (length (remove_dups idx)) 0 ++ ascending_complement idx dim.
Proof.
  intros Hin. unfold ascending_complement.
  rewrite <- (filter_app_complement (λ j, j ∈ idx) (seq 0 dim)) at 1.
  rewrite fmap_app, zero_kept_kept, zero_kept_dropped.
  by rewrite (kept_positions_remove_dups idx dim).
Qed.

Lemma remove_dups_length_le idx : length (remove_dups idx) ≤ length idx.
Proof.
  induction idx as [|i idx IH]; simpl; [done|].
  case_decide; simpl; lia.
Qed.

Lemma complement_idx_row_repeated idx dim :
  Forall (λ i, i < dim) idx →
  complement_idx_row idx dim
  = Ok (drop (length idx - length (remove_dups idx)) (ascending_complement idx dim)).
Proof.
  intros Hin. unfold complement_idx_row.
  rewrite scatter_arange by done. simpl.
  assert (Hsort : sort_ascending (zero_kept idx <$> seq 0 dim)
            = replicate (length (remove_dups idx)) 0 ++ ascending_complement idx dim).
  { apply (Sorted_unique le).
    - apply Sorted_merge_sort. apply _.
    - apply zeros_then_complement_sorted.
    - unfold sort_ascending. rewrite merge_sort_Permutation. by apply masked_perm_dups. }
  rewrite Hsort. f_equal.
  pose proof (remove_dups_length_le idx) as Hle.
  rewrite drop_app_ge by (rewrite length_replicate; lia).
  by rewrite length_replicate.
Qed.
End ComplementEdges.

(** X1. [complement_idx] raises exactly when some index of some row is not
    below [dim]. *)
Theorem complement_idx_raises_iff (idx : list (list nat)) (dim : nat) :
  complement_idx idx dim = Raise RuntimeError
  ↔ ∃ row i, row ∈ idx ∧ i ∈ row ∧ dim ≤ i.
Proof.
  split.
  - intros Hraise.
    destruct (decide (Forall (λ row, Forall (λ i, i < dim) row) idx)) as [Hall|Hex].
    + unfold complement_idx in Hraise.
      destruct (mapM_Ok_Forall2 (λ row, complement_idx_row row dim) idx)
        as (k & Hk & _); [|congruence].
      eapply Forall_impl; [exact Hall|]. intros row Hrow. simpl.
      rewrite complement_idx_row_repeated by done. eauto.
    + apply not_Forall_Exists in Hex; [|apply _].
      apply Exists_exists in Hex as (row & Hrow & Hbad).
      apply not_Forall_Exists in Hbad; [|apply _].
      apply Exists_exists in Hbad as (i & Hi & Hge).
      exists row, i. split_and!; [done..|]. unfold compose in Hge. lia.
  - intros (row & i & Hrow & Hi & Hge). unfold complement_idx.
    apply (mapM_Raise _ _ _ row); [done| |].
    + apply complement_idx_row_out_of_range, Exists_exists. eauto.
    + apply Forall_forall. intros r _. simpl.
      destruct (decide (Forall (λ i, i < dim) r)) as [Hall|Hex].
      * right. rewrite complement_idx_row_repeated by done. eauto.
      * left. apply complement_idx_row_out_of_range.
        apply not_Forall_Exists in Hex; [|apply _].
        eapply Exists_impl; [exact Hex|]. unfold compose. intros; lia.
Qed.

Lemma complement_idx_raises_iff_witness :
  complement_idx [[1; 2]; [0; 7]] 5 = Raise RuntimeError.
Proof.
  apply (proj2 (complement_idx_raises_iff [[1; 2]; [0; 7]] 5)).
  exists [0; 7], 7. split_and!.
  - apply list_elem_of_further, list_elem_of_here.
  - apply list_elem_of_further, list_elem_of_here.
  - lia.
Defined.

(** X2. On rows of indices below [dim] in which indices may repeat,
    [complement_idx] returns the ascending complement of the row without its
    smallest entries, one for every repetition; a row of [K] indices always
    yields [dim - K] entries. *)
Theorem complement_idx_repeated_indices (idx : list (list nat)) (dim : nat) :
  Forall (λ row, Forall (λ i, i < dim) row) idx →
  ∃ compl,
    complement_idx idx dim = Ok compl ∧
    Forall2 (λ row c,
               c = drop (length row - length (remove_dups row))
                        (ascending_complement row dim) ∧
               length c = dim - length row ∧
               (∀ j, j ∈ c → j < dim ∧ j ∉ row)) idx compl.
Proof.
  intros Hidx.
  exists ((λ row, drop (length row - length (remove_dups row))
                    (ascending_complement row dim)) <$> idx).
  split.
  - unfold complement_idx. induction Hidx as [|row idx Hrow _ IH]; [done|].
    cbn [mapM]. rewrite complement_idx_row_repeated by done. simpl.
    by rewrite IH.
  - apply Forall2_fmap_r, Forall_Forall2_diag.
    eapply Forall_impl; [exact Hidx|]. intros row Hrow. split_and!; [done| |].
    + pose proof (masked_perm_dups row dim Hrow) as Hp.
      apply Permutation_length in Hp.
      rewrite length_fmap, length_seq, length_app, length_replicate in Hp.
      pose proof (remove_dups_length_le row). rewrite length_drop. lia.
    + intros j Hj. apply elem_of_ascending_complement.
      rewrite <- (take_drop (length row - length (remove_dups row))
                    (ascending_complement row dim)).
      apply elem_of_app. by right.
Qed.

Lemma complement_idx_repeated_indices_witness :
  ∃ compl,
    complement_idx [[2; 2]; [0; 3; 0]] 5 = Ok compl ∧
    Forall2 (λ row c,
               c = drop (length row - length (remove_dups row))
                        (ascending_complement row 5) ∧
               length c = 5 - length row ∧
               (∀ j, j ∈ c → j < 5 ∧ j ∉ row)) [[2; 2]; [0; 3; 0]] compl.
Proof.
  apply (complement_idx_repeated_indices [[2; 2]; [0; 3; 0]] 5).
  apply (bool_decide_unpack _). by vm_compute.
Defined.

(** The two rows of the witness: the unkept index 0, respectively 1, is
    lost to the repetition. *)
Example complement_idx_repeated_example :
  complement_idx [[2; 2]; [0; 3; 0]] 5 = Ok [[1; 3; 4]; [2; 4]].
Proof. reflexivity. Qed.

(** * The schedule built by the constructor *)

Lemma list_setitem_out_of_range {A} (l : list A) (i : Z) (v : A) :
  ¬ (- Z.of_nat (length l) ≤ i < Z.of_nat (length l))%Z →
  list_setitem l i v = Raise IndexError.
Proof.
  intros Hi. unfold list_setitem.
  rewrite decide_False by lia. by rewrite decide_False by lia.
Qed.

Lemma list_setitem_Ok_or_IndexError {A} (l : list A) (i : Z) (v : A) :
  (∃ l', list_setitem l i v = Ok l') ∨ list_setitem l i v = Raise IndexError.
Proof. unfold list_setitem. repeat case_decide; eauto. Qed.

Lemma assign_ratios_out_of_range schedule : ∀ full,
  Exists (λ entry, ¬ (- Z.of_nat (length full) ≤ entry.1 < Z.of_nat (length full))%Z)
         schedule →
  EViT.assign_ratios full schedule = Raise IndexError.
Proof.
  induction schedule as [|[loc r] schedule IH]; intros full Hex;
    [by apply Exists_nil in Hex|].
  cbn [EViT.assign_ratios].
  destruct (list_setitem_Ok_or_IndexError full loc r) as [[full' Hset]| ->]; [|done].
  rewrite Hset. simpl. apply IH.
  rewrite (list_setitem_length _ _ _ _ Hset).
  apply Exists_cons in Hex as [Hex|Hex]; [|done]. simpl in Hex.
  by rewrite list_setitem_out_of_range in Hset.
Qed.

Section Schedule.
Context {R : Type} `{Scalar R}.
Implicit Types
  (sublayers : nat → (list (list R) → list (list R) * list (list (list R)))
                     * (list (list R) → list (list R)))
  (a : EViT.args).

Lemma init_location_out_of_range depth sublayers a loc :
  length (EViT.broadcast_ratio (EViT.arg_keep_rate a) (EViT.arg_reduction_loc a))
    = length (EViT.arg_reduction_loc a) →
  loc ∈ EViT.arg_reduction_loc a →
  ¬ (- Z.of_nat depth ≤ loc < Z.of_nat depth)%Z →
  EViT.__init__ depth sublayers a = Raise IndexError.
Proof.
  intros Hlen Hloc Hrange. unfold EViT.__init__. cbv zeta.
  rewrite (bool_decide_eq_true_2 _ Hlen). simpl.
  unfold EViT.token_ratio_full. rewrite assign_ratios_out_of_range; [done|].
  rewrite length_replicate.
  apply list_elem_of_lookup_1 in Hloc as [j Hj].
  destruct (lookup_lt_is_Some_2
              (EViT.broadcast_ratio (EViT.arg_keep_rate a) (EViT.arg_reduction_loc a)) j)
    as [r Hr].
  { apply lookup_lt_Some in Hj. lia. }
  apply Exists_exists. exists (loc, r). split; [|done].
  apply list_elem_of_lookup_2 with j. apply lookup_zip_with_Some. eauto.
Qed.

Lemma schedule_entries depth (locs : list Z) (rates : list float) :
  length rates = length locs →
  NoDup locs →
  Forall (λ loc, 0 ≤ loc < Z.of_nat depth)%Z locs →
  ∃ full,
    EViT.token_ratio_full depth locs rates = Ok full ∧
    length full = depth ∧
    (∀ j loc r, locs !! j = Some loc → rates !! j = Some r →
                full !! Z.to_nat loc = Some r) ∧
    (∀ i, i < depth → Z.of_nat i ∉ locs → full !! i = Some 1%float).
Proof.
  intros Hlen Hnd Hin. unfold EViT.token_ratio_full.
  destruct (assign_ratios_distinct (zip locs rates) (replicate depth 1%float))
    as (full & Hfull & Hset & Hkeep).
  { by rewrite fst_zip by lia. }
  { rewrite fst_zip by lia. by rewrite length_replicate. }
  rewrite fst_zip in Hkeep by lia.
  exists full. split_and!; [done| | |].
  - apply assign_ratios_length in Hfull. by rewrite length_replicate in Hfull.
  - intros j loc r Hj Hr. apply Hset.
    apply list_elem_of_lookup_2 with j. apply lookup_zip_with_Some. eauto.
  - intros i Hi Hnot. rewrite Hkeep by done. by apply lookup_replicate_2.
Qed.
End Schedule.

(** X3. A reduction location outside [-depth, depth) makes the constructor
    fail with [IndexError] (the rates and the locations agreeing in number):
    the assignment into the per-stage schedule is the first step to see
    it. *)
Theorem construction_location_out_of_range
    (R : Type) `{Scalar R} (depth : nat)
    (sublayers : nat → (list (list R) → list (list R) * list (list (list R)))
                       * (list (list R) → list (list R)))
    (a : EViT.args) (loc : Z) :
  length (EViT.broadcast_ratio (EViT.arg_keep_rate a) (EViT.arg_reduction_loc a))
    = length (EViT.arg_reduction_loc a) →
  loc ∈ EViT.arg_reduction_loc a →
  ¬ (- Z.of_nat depth ≤ loc < Z.of_nat depth)%Z →
  EViT.__init__ depth sublayers a = Raise IndexError.
Proof. apply init_location_out_of_range. Qed.

Lemma construction_location_out_of_range_witness :
  EViT.__init__ 12 uniform_sublayers
    (EViT.mk_args [0x1p-1]%float [3; 12]%Z false false false false false 0)
  = Raise IndexError.
Proof.
  apply (construction_location_out_of_range Z 12 uniform_sublayers _ 12%Z).
  - reflexivity.
  - apply list_elem_of_further, list_elem_of_here.
  - lia.
Defined.

(** X4. With as many rates as locations (after the broadcast of a single
    rate), distinct locations in [0, depth), every rate in (0, 1] and, when
    the cache is enabled, [num_clr] non-zero or the pooled carrier, the
    constructor succeeds.  It builds [depth] blocks with the given sublayers;
    the block at a listed location has the rate of that location, every other
    block has rate 1; the recovery layers are the reduction locations,
    followed by [depth - 2] when recovery at the last stage is asked for; and
    no carrier tokens exist yet. *)
Theorem construction_builds_schedule
    (R : Type) `{Scalar R} (depth : nat)
    (sublayers : nat → (list (list R) → list (list R) * list (list (list R)))
                       * (list (list R) → list (list R)))
    (a : EViT.args) :
  let locs := EViT.arg_reduction_loc a in
  let rates := EViT.broadcast_ratio (EViT.arg_keep_rate a) locs in
  length rates = length locs →
  NoDup locs →
  Forall (λ loc, 0 ≤ loc < Z.of_nat depth)%Z locs →
  Forall (λ r, Block.valid_rate r = true) rates →
  (EViT.arg_clc a = true →
   EViT.arg_num_clr a ≠ 0%Z ∨ EViT.arg_clc_include_gap a = true) →
  ∃ m,
    EViT.__init__ depth sublayers a = Ok m ∧
    length (EViT.blocks m) = depth ∧
    (∀ i blk, EViT.blocks m !! i = Some blk →
       Block.attn_branch blk = (sublayers i).1 ∧
       Block.mlp_branch blk = (sublayers i).2 ∧
       (∀ j r, locs !! j = Some (Z.of_nat i) → rates !! j = Some r →
               Block.keep_rate blk = r) ∧
       (Z.of_nat i ∉ locs → Block.keep_rate blk = 1%float)) ∧
    EViT.recovery_layers m
      = (if EViT.arg_clc_recover_at_last a then locs ++ [(Z.of_nat depth - 2)%Z]
         else locs) ∧
    EViT.clc m = EViT.arg_clc a ∧
    EViT.clr m = None.
Proof.
  intros locs rates Hlen Hnd Hin Hvalid Hclc.
  destruct (schedule_entries depth locs rates Hlen Hnd Hin)
    as (full & Hfull & Hdepth & Hset & Hone).
  assert (Hfull_valid : Forall (λ r, Block.valid_rate r = true) full).
  { apply Forall_lookup. intros i q Hq.
    assert (Hi : i < depth) by (apply lookup_lt_Some in Hq; lia).
    destruct (decide (Z.of_nat i ∈ locs)) as [Hloc|Hloc].
    - apply list_elem_of_lookup_1 in Hloc as [j Hj].
      destruct (lookup_lt_is_Some_2 rates j) as [r Hr].
      { apply lookup_lt_Some in Hj. lia. }
      pose proof (Hset j _ r Hj Hr) as Hq'. rewrite Nat2Z.id in Hq'.
      rewrite Hq in Hq'. injection Hq' as ->.
      rewrite Forall_forall in Hvalid. apply Hvalid.
      by apply list_elem_of_lookup_2 with j.
    - rewrite Hone in Hq by done. by injection Hq as <-. }
  destruct (mapM_Ok_Forall2
              (λ ir : nat * float,
                 Block.__init__ ir.2 (sublayers ir.1).1 (sublayers ir.1).2)
              (zip (seq 0 depth) full)) as (blocks & Hblocks & Hall).
  { apply Forall_forall. intros [i q] Hiq. simpl.
    apply list_elem_of_lookup_1 in Hiq as [k Hk].
    apply lookup_zip_with_Some in Hk as (i' & q' & [= <- <-] & _ & Hq).
    rewrite Forall_forall in Hfull_valid.
    unfold Block.__init__.
    rewrite (Hfull_valid q) by (by apply list_elem_of_lookup_2 with k). simpl. eauto. }
  assert (Hcarrier :
    (if EViT.arg_clc a
     then py_assert (bool_decide (EViT.arg_num_clr a ≠ 0%Z) || EViT.arg_clc_include_gap a)
     else Ok ()) = Ok ()).
  { destruct (EViT.arg_clc a); [|done].
    destruct (Hclc eq_refl) as [Hclr| ->].
    - by rewrite (bool_decide_eq_true_2 _ Hclr).
    - by rewrite orb_true_r. }
  eexists. split_and!.
  - unfold EViT.__init__. cbv zeta. fold locs. fold rates.
    rewrite (bool_decide_eq_true_2 _ Hlen). simpl.
    rewrite Hfull. simpl. rewrite Hblocks. simpl.
    rewrite Hcarrier. reflexivity.
  - simpl. apply Forall2_length in Hall.
    rewrite length_zip_with, length_seq in Hall. lia.
  - simpl. intros i blk Hblk.
    destruct (Forall2_lookup_r _ _ _ _ _ Hall Hblk) as ([i' q] & Hiq & Hinit).
    apply lookup_zip_with_Some in Hiq as (i'' & q' & [= <- <-] & Hi & Hq).
    apply lookup_seq in Hi as [-> Hi]. simpl in Hinit.
    unfold Block.__init__ in Hinit.
    destruct (Block.valid_rate q); simpl in Hinit; [|done].
    injection Hinit as <-. simpl. split_and!; [done|done| |].
    + intros j r Hj Hr. pose proof (Hset j _ r Hj Hr) as Hq'.
      rewrite Nat2Z.id in Hq'. congruence.
    + intros Hnot. rewrite Hone in Hq by done. by injection Hq as <-.
  - done.
  - done.
  - done.
Qed.

Lemma construction_builds_schedule_witness :
  ∃ m,
    EViT.__init__ 12 uniform_sublayers trajectory_args = Ok m ∧
    length (EViT.blocks m) = 12 ∧
    (∀ i blk, EViT.blocks m !! i = Some blk →
       Block.attn_branch blk = (uniform_sublayers i).1 ∧
       Block.mlp_branch blk = (uniform_sublayers i).2 ∧
       (∀ j r, EViT.arg_reduction_loc trajectory_args !! j = Some (Z.of_nat i) →
               EViT.broadcast_ratio (EViT.arg_keep_rate trajectory_args)
                 (EViT.arg_reduction_loc trajectory_args) !! j = Some r →
               Block.keep_rate blk = r) ∧
       (Z.of_nat i ∉ EViT.arg_reduction_loc trajectory_args →
        Block.keep_rate blk = 1%float)) ∧
    EViT.recovery_layers m
      = (if EViT.arg_clc_recover_at_last trajectory_args
         then EViT.arg_reduction_loc trajectory_args ++ [(Z.of_nat 12 - 2)%Z]
         else EViT.arg_reduction_loc trajectory_args) ∧
    EViT.clc m = EViT.arg_clc trajectory_args ∧
    EViT.clr m = None.
Proof.
  apply (construction_builds_schedule Z 12 uniform_sublayers trajectory_args).
  - reflexivity.
  - apply (bool_decide_unpack _). by vm_compute.
  - apply (bool_decide_unpack _). by vm_compute.
  - repeat constructor.
  - discriminate.
Defined.

(** * Cache configurations that fail in [forward] *)

Section CacheFailures.
Context {R : Type} `{Scalar R} `{TensorLibrary}.
Implicit Types (m : EViT.t R) (st : EViT.state R) (blk : Block.t R)
  (x : list (list R)) (i j final : Z).

(** The first iteration decides the outcome when its cache step raises. *)
Lemma forward_stages_first m blk blks x e :
  EViT.blocks m = blk :: blks →
  (∀ x', EViT.cache_step m 0
           (EViT.mk_state x' [] (EViT.curr_num_pool (EViT.initial_state m x)))
         = Raise e) →
  EViT.forward_stages m x
  = match Block.forward blk x with
    | Ok _ => Raise e
    | Raise e' => Raise e'
    end.
Proof.
  intros Hblocks Hstep. unfold EViT.forward_stages. rewrite Hblocks.
  cbn [EViT.stages]. unfold EViT.stage.
  change (EViT.x (EViT.initial_state m x)) with x.
  change (EViT.cross_layer_cache (EViT.initial_state m x)) with (@nil (list (list R))).
  destruct (Block.forward blk x) as [[[[x' n] idx] compl]|e']; simpl; [|done].
  by rewrite Hstep.
Qed.

Lemma recover_empty_buffer m i st :
  EViT.clc m = true → i ∈ EViT.recovery_layers m →
  EViT.cross_layer_cache st = [] →
  EViT.recover m i st = Raise cat_empty_error.
Proof.
  intros Hclc Hi Hcache. unfold EViT.recover.
  rewrite Hclc, bool_decide_eq_true_2 by done. simpl. by rewrite Hcache.
Qed.

Lemma cache_step_empty_buffer m i st :
  EViT.clc m = true → i ∈ EViT.recovery_layers m →
  EViT.cross_layer_cache st = [] →
  EViT.cache_step m i st = Raise cat_empty_error.
Proof.
  intros. unfold EViT.cache_step. by rewrite recover_empty_buffer.
Qed.

Lemma cache_step_no_layers m i st :
  EViT.clc m = true → EViT.recovery_layers m = [] →
  EViT.cache_step m i st = Raise IndexError.
Proof.
  intros Hclc Hnone. unfold EViT.cache_step.
  rewrite recover_not_listed by (rewrite Hnone; apply not_elem_of_nil). simpl.
  unfold EViT.accumulate. by rewrite Hclc, Hnone.
Qed.

Lemma cache_step_no_carrier m i final st :
  EViT.clc m = true → EViT.clc_include_gap m = false → EViT.clr m = None →
  last (EViT.recovery_layers m) = Some final → (i < final)%Z →
  EViT.cross_layer_cache st = [] →
  EViT.cache_step m i st = Raise cat_empty_error.
Proof.
  intros Hclc Hgap Hclr Hlast Hi Hcache.
  destruct (decide (i ∈ EViT.recovery_layers m)) as [Hin|Hin].
  - by apply cache_step_empty_buffer.
  - unfold EViT.cache_step. rewrite recover_not_listed by done. simpl.
    unfold EViT.accumulate. rewrite Hclc, Hlast.
    replace (i <? final)%Z with true by (symmetry; by apply Z.ltb_lt).
    unfold EViT.carriers. by rewrite Hgap, Hclr.
Qed.

(** From the last entry of [recovery_layers] on, the buffer stays empty. *)
Lemma cache_step_after_final m i final st st' :
  EViT.clc m = true → last (EViT.recovery_layers m) = Some final →
  (final ≤ i)%Z →
  ((final < i)%Z → EViT.cross_layer_cache st = []) →
  EViT.cache_step m i st = Ok st' →
  EViT.cross_layer_cache st' = [].
Proof.
  intros Hclc Hlast Hi Hinv. unfold EViT.cache_step.
  destruct (decide (i ∈ EViT.recovery_layers m)) as [Hin|Hin].
  - unfold EViT.recover. rewrite Hclc, bool_decide_eq_true_2 by done. simpl.
    destruct (torch_cat (EViT.cross_layer_cache st)) as [prev|]; simpl; [|done].
    rewrite (accumulate_from_final m i final) by done. by intros [= <-].
  - rewrite recover_not_listed by done. simpl.
    rewrite (accumulate_from_final m i final) by done. intros [= <-].
    apply Hinv. destruct (decide (final = i)) as [->|]; [|lia].
    exfalso. apply Hin. by apply last_Some_elem_of.
Qed.

Lemma stages_recovery_after_final m final j blks : ∀ i st,
  EViT.clc m = true → last (EViT.recovery_layers m) = Some final →
  j ∈ EViT.recovery_layers m → (final < j)%Z →
  (i ≤ j < i + Z.of_nat (length blks))%Z →
  ((final < i)%Z → EViT.cross_layer_cache st = []) →
  is_error (EViT.stages m i blks st).
Proof.
  induction blks as [|blk blks IH]; intros i st Hclc Hlast Hj Hfj Hrange Hinv;
    [simpl in Hrange; lia|].
  cbn [EViT.stages].
  destruct (EViT.stage m i blk st) as [st'|] eqn:Hstage; [|exact I].
  cbn [mbind result_bind].
  assert (Hnext : is_error (EViT.stages m (i + 1) blks st')).
  { unfold EViT.stage in Hstage.
    destruct (Block.forward blk (EViT.x st)) as [[[[x' n] idx] compl]|];
      simpl in Hstage; [|done].
    destruct (decide (i = j)) as [->|Hne].
    - rewrite cache_step_empty_buffer in Hstage; [done..|]. simpl. apply Hinv. lia.
    - apply IH; [done..| |].
      + rewrite length_cons in Hrange. lia.
      + intros Hfi. eapply (cache_step_after_final m i final); [done..|lia| |done].
        simpl. intros. apply Hinv. lia. }
  by destruct (EViT.stages m (i + 1) blks st').
Qed.
End CacheFailures.

(** X5. With the cache enabled and stage 0 among the recovery layers, the
    first iteration finds the buffer empty: when the first block returns,
    [torch.cat] of the empty buffer raises, with the exception
    [cat_empty_error] of the library, whatever its class, and [forward] never
    gets past stage 0. *)
Theorem cache_recovery_at_first_stage_raises
    (R : Type) `{Scalar R} `{TensorLibrary} (m : EViT.t R) (blk : Block.t R)
    (blks : list (Block.t R)) (x : list (list R)) :
  EViT.clc m = true →
  0%Z ∈ EViT.recovery_layers m →
  EViT.blocks m = blk :: blks →
  EViT.forward_stages m x
  = match Block.forward blk x with
    | Ok _ => Raise cat_empty_error
    | Raise e => Raise e
    end.
Proof.
  intros Hclc Hzero Hblocks. apply forward_stages_first with blks; [done|].
  intros x'. by apply cache_step_empty_buffer.
Qed.

(** Reduction at stages 0 and 3 with the cache and the pooled carrier. *)
Lemma cache_recovery_at_first_stage_raises_witness :
  ∃ m,
    EViT.__init__ 4 uniform_sublayers
      (EViT.mk_args [0x1p-1]%float [0; 3]%Z true true false false false 0) = Ok m ∧
    EViT.forward_stages m (replicate 6 [0%Z]) = Raise cat_empty_error.
Proof.
  eexists. split; [vm_compute; reflexivity|].
  etransitivity.
  - eapply (cache_recovery_at_first_stage_raises Z).
    + reflexivity.
    + apply list_elem_of_here.
    + reflexivity.
  - reflexivity.
Defined.

(** X6. With the cache enabled, a recovery layer [j] that is larger than the
    last entry of [recovery_layers] (a list that is not ascending, or
    [depth - 2] appended after a later reduction location) makes [forward]
    raise: nothing is accumulated from that last entry on, so stage [j], if
    it is reached, finds the buffer empty. *)
Theorem cache_recovery_after_last_entry_raises
    (R : Type) `{Scalar R} `{TensorLibrary} (m : EViT.t R) (final j : Z) (x : list (list R)) :
  EViT.clc m = true →
  last (EViT.recovery_layers m) = Some final →
  j ∈ EViT.recovery_layers m →
  (final < j)%Z →
  (0 ≤ j < Z.of_nat (length (EViT.blocks m)))%Z →
  is_error (EViT.forward_stages m x).
Proof.
  intros Hclc Hlast Hj Hfj Hrange. unfold EViT.forward_stages.
  apply (stages_recovery_after_final m final j); [done..|lia|done].
Qed.

(** Reduction locations given in descending order: stage 6 comes after the
    last entry, 3. *)
Lemma cache_recovery_after_last_entry_raises_witness :
  ∃ m,
    EViT.__init__ 8 uniform_sublayers
      (EViT.mk_args [0x1.ccccccccccccdp-1]%float [6; 3]%Z true true false false false 0)
      = Ok m ∧
    is_error (EViT.forward_stages m (replicate 40 [0%Z])).
Proof.
  eexists. split; [vm_compute; reflexivity|].
  apply (cache_recovery_after_last_entry_raises Z _ 3 6).
  - reflexivity.
  - reflexivity.
  - apply list_elem_of_here.
  - lia.
  - simpl. lia.
Defined.

(** X7. With the cache enabled and no recovery layer at all, the
    accumulation of the first iteration indexes the empty list
    [recovery_layers]: when the first block returns, [forward] raises
    [IndexError]. *)
Theorem cache_without_recovery_layers_raises
    (R : Type) `{Scalar R} `{TensorLibrary} (m : EViT.t R) (blk : Block.t R)
    (blks : list (Block.t R)) (x : list (list R)) :
  EViT.clc m = true →
  EViT.recovery_layers m = [] →
  EViT.blocks m = blk :: blks →
  EViT.forward_stages m x
  = match Block.forward blk x with
    | Ok _ => Raise IndexError
    | Raise e => Raise e
    end.
Proof.
  intros Hclc Hnone Hblocks. apply forward_stages_first with blks; [done|].
  intros x'. by apply cache_step_no_layers.
Qed.

(** The cache enabled without any reduction location: the constructor accepts
    the configuration, [forward] raises. *)
Lemma cache_without_recovery_layers_raises_witness :
  ∃ m,
    EViT.__init__ 4 uniform_sublayers
      (EViT.mk_args [0x1p-1]%float [] true true false false false 0) = Ok m ∧
    EViT.forward_stages m (replicate 6 [0%Z]) = Raise IndexError.
Proof.
  eexists. split; [vm_compute; reflexivity|].
  etransitivity.
  - eapply (cache_without_recovery_layers_raises Z); reflexivity.
  - reflexivity.
Defined.

(** X8. With the cache enabled, the pooled carrier disabled and no carrier
    tokens created by [add_clr], the first iteration has nothing to cache:
    when the first block returns and the last recovery layer is after stage
    0, [torch.cat] is given the empty list of carriers and [forward] raises
    the exception [cat_empty_error] of the library, whatever its class. *)
Theorem cache_without_carrier_raises
    (R : Type) `{Scalar R} `{TensorLibrary} (m : EViT.t R) (final : Z)
    (blk : Block.t R) (blks : list (Block.t R)) (x : list (list R)) :
  EViT.clc m = true →
  EViT.clc_include_gap m = false →
  EViT.clr m = None →
  last (EViT.recovery_layers m) = Some final →
  (0 < final)%Z →
  EViT.blocks m = blk :: blks →
  EViT.forward_stages m x
  = match Block.forward blk x with
    | Ok _ => Raise cat_empty_error
    | Raise e => Raise e
    end.
Proof.
  intros Hclc Hgap Hclr Hlast Hfinal Hblocks.
  apply forward_stages_first with blks; [done|].
  intros x'. by apply (cache_step_no_carrier m 0 final).
Qed.

(** [num_clr = 2] in the arguments passes the check of the constructor, which
    creates no carrier token. *)
Lemma cache_without_carrier_raises_witness :
  ∃ m,
    EViT.__init__ 4 uniform_sublayers
      (EViT.mk_args [0x1p-1]%float [2]%Z true false false false false 2) = Ok m ∧
    EViT.forward_stages m (replicate 6 [0%Z]) = Raise cat_empty_error.
Proof.
  eexists. split; [vm_compute; reflexivity|].
  etransitivity.
  - eapply (cache_without_carrier_raises Z _ 2); reflexivity.
  - reflexivity.
Defined.

(** * Sequence lengths with the cross-layer cache *)

Lemma concat_length_sum {A} (ls : list (list A)) :
  length (concat ls) = sum_list (length <$> ls).
Proof. induction ls as [|l ls IH]; simpl; [done|]. rewrite length_app, IH. done. Qed.

Lemma tail_slice_length_eq {A} (x : list A) k :
  length (tail_slice x k) = tail_slice_length (length x) k.
Proof. destruct k; simpl; [done|]. by rewrite length_drop. Qed.

Section CacheLengths.
Context {R : Type} `{Scalar R} `{TensorLibrary}.
Implicit Types (m : EViT.t R) (st : EViT.state R) (blk : Block.t R)
  (x : list (list R)) (i : Z).

Lemma carriers_shape m st n :
  carriers_length m (length (EViT.x st)) = Some n →
  ∃ entry, EViT.carriers m st = Ok entry ∧ length entry = n.
Proof.
  unfold carriers_length, EViT.carriers. intros Hn.
  destruct (EViT.clc_include_gap m), (EViT.clr m) as [k|];
    simpl in *; try done; injection Hn as <-;
    (eexists; split; [done|]); simpl;
    rewrite ?length_app, ?app_nil_r, ?tail_slice_length_eq; simpl; lia.
Qed.

Lemma recover_shape m i st s1 :
  (if EViT.clc m && bool_decide (i ∈ EViT.recovery_layers m) then
     match (state_shape st).2 with
     | [] => None
     | cache => Some ((state_shape st).1 + sum_list cache, [])
     end
   else Some (state_shape st)) = Some s1 →
  ∃ st1, EViT.recover m i st = Ok st1 ∧ state_shape st1 = s1.
Proof.
  unfold EViT.recover, state_shape. cbn [fst snd].
  destruct (EViT.clc m && bool_decide (i ∈ EViT.recovery_layers m)).
  - destruct (EViT.cross_layer_cache st) as [|e cache]; [done|].
    intros [= <-]. rewrite torch_cat_nonempty by done.
    eexists. split; [done|]. cbn [EViT.x EViT.cross_layer_cache].
    by rewrite length_app, concat_length_sum.
  - intros [= <-]. by eexists.
Qed.

Lemma accumulate_shape m i st s' :
  (if EViT.clc m then
     final ← last (EViT.recovery_layers m);
     if (i <? final)%Z then
       entry ← carriers_length m (state_shape st).1;
       Some ((state_shape st).1, (state_shape st).2 ++ [entry])
     else Some (state_shape st)
   else Some (state_shape st)) = Some s' →
  ∃ st', EViT.accumulate m i st = Ok st' ∧ state_shape st' = s'.
Proof.
  unfold EViT.accumulate, state_shape. cbn [fst snd].
  destruct (EViT.clc m); [|intros [= <-]; by eexists].
  destruct (last (EViT.recovery_layers m)) as [final|]; [|done].
  cbn [mbind option_bind].
  destruct (i <? final)%Z; [|intros [= <-]; by eexists].
  destruct (carriers_length m _) as [n|] eqn:Hn; [|done].
  cbn [mbind option_bind]. intros [= <-].
  destruct (carriers_shape m st n Hn) as (entry & -> & <-).
  eexists. split; [done|]. cbn [EViT.x EViT.cross_layer_cache].
  by rewrite fmap_app.
Qed.

Lemma cache_step_shape_sound m i st s' :
  cache_step_shape m i (state_shape st) = Some s' →
  ∃ st', EViT.cache_step m i st = Ok st' ∧ state_shape st' = s'.
Proof.
  unfold cache_step_shape, EViT.cache_step. intros Hs'.
  match type of Hs' with (?a ≫= _) = _ => destruct a as [s1|] eqn:Hs1 end; [|done].
  cbn [mbind option_bind] in Hs'.
  destruct (recover_shape m i st s1 Hs1) as (st1 & -> & <-).
  cbn [mbind result_bind]. by apply accumulate_shape.
Qed.

Lemma stages_cache_length_trajectory m blks : ∀ i st traj,
  Forall block_shaped blks →
  cache_length_trajectory m i (Block.keep_rate <$> blks) (state_shape st) = Some traj →
  ∃ sts, EViT.stages m i blks st = Ok sts ∧ state_shape <$> sts = traj.
Proof.
  induction blks as [|blk blks IH]; intros i st traj Hshape Htraj.
  - injection Htraj as <-. by exists [].
  - apply Forall_cons in Hshape as [Hblk Hshape].
    rewrite fmap_cons in Htraj. cbn [cache_length_trajectory] in Htraj.
    unfold state_shape at 1 2 in Htraj. cbn [fst snd] in Htraj.
    destruct (stage_length (Block.keep_rate blk) (length (EViT.x st)))
      as [N'|] eqn:HN'; [|done]. cbn [mbind option_bind] in Htraj.
    destruct (forward_stage_length blk (EViT.x st) N' Hblk HN')
      as (x' & n & idx & compl & Hfwd & Hx').
    destruct (cache_step_shape m i (N', length <$> EViT.cross_layer_cache st))
      as [s'|] eqn:Hstep; [|done]. cbn [mbind option_bind] in Htraj.
    destruct (cache_length_trajectory m (i + 1) (Block.keep_rate <$> blks) s')
      as [rest|] eqn:Hrest; [|done]. injection Htraj as <-.
    destruct (cache_step_shape_sound m i
                (EViT.mk_state x' (EViT.cross_layer_cache st) (EViT.curr_num_pool st)) s')
      as (st' & Hst' & Hs').
    { unfold state_shape. cbn [EViT.x EViT.cross_layer_cache]. by rewrite Hx'. }
    cbn [EViT.stages]. unfold EViT.stage. rewrite Hfwd. simpl. rewrite Hst'. simpl.
    destruct (IH (i + 1)%Z st' rest Hshape) as (sts & -> & Hsts).
    { by rewrite Hs'. }
    simpl. eexists. split; [done|]. by rewrite fmap_cons, Hs', Hsts.
Qed.
End CacheLengths.

(** X9.  The token counts of the stage loop with the cross-layer cache do
    not depend on the values of the tokens.  When the count-level run of the
    loop (the keep rates of the blocks, the recovery layers, the carrier
    sources) goes through, [forward] completes all its stages for every
    input of that length and every blocks whose sublayers keep the shape of
    their input, and after each stage the sequence and every buffered entry
    have the computed number of tokens. *)
Theorem cache_sequence_length_trajectory
    (R : Type) `{Scalar R} `{TensorLibrary} (m : EViT.t R) (x : list (list R))
    (traj : list (nat * list nat)) :
  Forall block_shaped (EViT.blocks m) →
  cache_length_trajectory m 0 (Block.keep_rate <$> EViT.blocks m) (length x, [])
  = Some traj →
  ∃ sts, EViT.forward_stages m x = Ok sts ∧ state_shape <$> sts = traj.
Proof.
  intros Hshape Htraj. unfold EViT.forward_stages.
  by apply stages_cache_length_trajectory.
Qed.

(** The end-to-end configuration with the cache: 197 tokens, keep rate 0.9
    at stages 3, 6 and 9, the pooled carrier as the only source.  Each
    recovery appends the three buffered tokens to the reduced sequence. *)
Lemma cache_sequence_length_trajectory_witness :
  ∃ m sts,
    EViT.__init__ 12 uniform_sublayers cache_args = Ok m ∧
    EViT.forward_stages m (replicate 197 [0%Z]) = Ok sts ∧
    state_shape <$> sts
    = [(197, [1]); (197, [1; 1]); (197, [1; 1; 1]);
       (182, [1]); (182, [1; 1]); (182, [1; 1; 1]);
       (168, [1]); (168, [1; 1]); (168, [1; 1; 1]);
       (156, []); (156, []); (156, [])].
Proof.
  assert (Hinit : ∃ m : EViT.t Z,
    EViT.__init__ 12 uniform_sublayers cache_args = Ok m ∧
    Forall block_shaped (EViT.blocks m) ∧
    cache_length_trajectory m 0 (Block.keep_rate <$> EViT.blocks m)
      (length (replicate 197 [0%Z]), [])
    = Some [(197, [1]); (197, [1; 1]); (197, [1; 1; 1]);
            (182, [1]); (182, [1; 1]); (182, [1; 1; 1]);
            (168, [1]); (168, [1; 1]); (168, [1; 1; 1]);
            (156, []); (156, []); (156, [])]).
  { eexists. split; [vm_compute; reflexivity|]. split.
    - repeat (constructor; [exact (uniform_branches_shaped 0)|]). constructor.
    - vm_compute. reflexivity. }
  destruct Hinit as (m & Hm & Hshape & Htraj).
  destruct (cache_sequence_length_trajectory Z m (replicate 197 [0%Z]) _ Hshape Htraj)
    as (sts & Hsts & Hshapes).
  by exists m, sts.
Defined.

(** * The class tokens collected for the feature-fusion head *)

Section Counting.
Context {A : Type} `{EqDecision A}.
Implicit Types (l : list A).

Lemma filter_length_all (P : A → Prop) `{!∀ a, Decision (P a)} l :
  length (filter P l) = length l ↔ Forall P l.
Proof.
  induction l as [|a l IH]; [by split; [constructor|]|].
  rewrite filter_cons. pose proof (length_filter P l) as Hle.
  destruct (decide (P a)) as [Ha|Ha]; simpl.
  - rewrite Forall_cons. split.
    + intros Hlen. split; [done|]. apply IH. lia.
    + intros [_ Hall]. apply IH in Hall. lia.
  - split; [lia|]. by intros [? _]%Forall_cons.
Qed.

Lemma remove_dups_length_bound l : length (remove_dups l) ≤ length l.
Proof.
  induction l as [|a l IH]; [done|]. simpl.
  destruct (decide_rel elem_of a l); simpl; lia.
Qed.

Lemma remove_dups_length_all l :
  length (remove_dups l) = length l ↔ NoDup l.
Proof.
  split.
  - induction l as [|a l IH]; [constructor|]. simpl.
    pose proof (remove_dups_length_bound l) as Hle.
    destruct (decide_rel elem_of a l) as [Ha|Ha]; simpl; [lia|].
    intros Hlen. constructor; [done|]. apply IH. lia.
  - intros Hnd. apply Permutation_length, NoDup_Permutation;
      [apply NoDup_remove_dups|done|].
    intros a. apply elem_of_remove_dups.
Qed.
End Counting.

Lemma collected_stages (locs : list Z) (d : Z) :
  (0 < d)%Z →
  filter (λ j, j ∈ locs ∨ j = d - 1)%Z (seqZ 0 d)
  ≡ₚ (d - 1)%Z :: remove_dups (filter (λ loc, 0 ≤ loc < d - 1)%Z locs).
Proof.
  intros Hd. apply NoDup_Permutation.
  - apply NoDup_filter, NoDup_seqZ.
  - constructor; [|apply NoDup_remove_dups].
    rewrite elem_of_remove_dups, list_elem_of_filter. lia.
  - intros j.
    rewrite list_elem_of_filter, elem_of_seqZ, elem_of_cons, elem_of_remove_dups,
      list_elem_of_filter.
    destruct (decide (j = d - 1)%Z); intuition lia.
Qed.

Lemma filter_all {A} (P : A → Prop) `{!∀ a, Decision (P a)} (l : list A) :
  Forall P l → filter P l = l.
Proof.
  induction 1 as [|a l Ha Hall IH]; [done|].
  rewrite filter_cons, decide_True by done. by rewrite IH.
Qed.

Lemma collected_count (locs : list Z) (d : Z) :
  (0 < d)%Z →
  length (filter (λ j, j ∈ locs ∨ j = d - 1)%Z (seqZ 0 d)) ≤ length locs + 1 ∧
  (length (filter (λ j, j ∈ locs ∨ j = d - 1)%Z (seqZ 0 d)) = length locs + 1
   ↔ NoDup locs ∧ Forall (λ loc, 0 ≤ loc < d - 1)%Z locs).
Proof.
  intros Hd. rewrite (collected_stages locs d Hd). cbn [length].
  pose proof (remove_dups_length_bound (filter (λ loc, 0 ≤ loc < d - 1)%Z locs)) as H1.
  pose proof (length_filter (λ loc, 0 ≤ loc < d - 1)%Z locs) as H2.
  split; [lia|]. split.
  - intros Hlen.
    assert (Hall : Forall (λ loc, 0 ≤ loc < d - 1)%Z locs).
    { apply (proj1 (filter_length_all _ _)). lia. }
    split; [|done]. apply (proj1 (remove_dups_length_all _)).
    rewrite (filter_all _ _ Hall) in Hlen. lia.
  - intros [Hnd Hall].
    rewrite (filter_all _ _ Hall). apply (proj2 (remove_dups_length_all _)) in Hnd. lia.
Qed.

Section ClassTokenCount.
Context {R : Type} `{Scalar R} `{TensorLibrary}.
Implicit Types (m : EViT.t R) (st : EViT.state R) (blk : Block.t R)
  (x : list (list R)) (i : Z).

Lemma reduce_Ok_nonempty keep_rate N C x attn z vars :
  Block.reduce keep_rate N C x attn = Ok (z, vars) → x ≠ [] → z ≠ [].
Proof.
  unfold Block.reduce. intros Hred Hx.
  destruct (keep_rate <? 1)%float; [|by injection Hred as <- <-].
  destruct (left_tokens keep_rate (Z.of_nat N)) as [k|]; [|done].
  cbn [mbind result_bind] in Hred.
  case_decide; [|by injection Hred as <- <-].
  repeat match type of Hred with
         | (?a ≫= _) = _ => destruct a; cbn [mbind result_bind] in Hred; [|done]
         end.
  injection Hred as <- <-. destruct x; [done|]. done.
Qed.

Lemma forward_Ok_nonempty blk x x' n idx compl :
  block_shaped blk → x ≠ [] →
  Block.forward blk x = Ok (x', n, idx, compl) → x' ≠ [].
Proof.
  intros Hshape Hx. rewrite forward_unfold. cbv zeta.
  destruct (Hshape x) as (Htmp & _ & _). simpl in Htmp.
  destruct (Block.reduce _ _ _ _ _) as [[z vars]|] eqn:Hred;
    cbn [mbind result_bind]; [|done].
  apply reduce_Ok_nonempty in Hred.
  2:{ intros Hnil. apply (f_equal length) in Hnil. rewrite tadd_length in Hnil by done.
      by destruct x. }
  destruct (Hshape z) as (_ & _ & Hmlp). simpl in Hmlp.
  assert (Hx' : tadd z (Block.mlp_branch blk z) ≠ []).
  { intros Hnil. apply (f_equal length) in Hnil. rewrite tadd_length in Hnil by done.
    by destruct z. }
  destruct vars; [|done|]; by intros [= <- _ _ _].
Qed.

Lemma accumulate_Ok_x m i st st' :
  EViT.accumulate m i st = Ok st' → EViT.x st' = EViT.x st.
Proof.
  unfold EViT.accumulate. intros Hacc.
  destruct (EViT.clc m); [|by injection Hacc as <-].
  destruct (last _); [|done]. destruct (_ <? _)%Z; [|by injection Hacc as <-].
  destruct (EViT.carriers m st); [|done]. by injection Hacc as <-.
Qed.

Lemma cache_step_Ok_nonempty m i st st' :
  EViT.cache_step m i st = Ok st' → EViT.x st ≠ [] → EViT.x st' ≠ [].
Proof.
  unfold EViT.cache_step, EViT.recover. intros Hstep Hx.
  destruct (EViT.clc m && bool_decide (i ∈ EViT.recovery_layers m)).
  - destruct (torch_cat _) as [prev|]; [|done]. cbn [mbind result_bind] in Hstep.
    apply accumulate_Ok_x in Hstep. rewrite Hstep. cbn [EViT.x].
    by destruct (EViT.x st).
  - cbn [mbind result_bind] in Hstep. apply accumulate_Ok_x in Hstep.
    by rewrite Hstep.
Qed.

Lemma stage_Ok_nonempty m i blk st st' :
  block_shaped blk → EViT.x st ≠ [] →
  EViT.stage m i blk st = Ok st' → EViT.x st' ≠ [].
Proof.
  intros Hshape Hx. unfold EViT.stage.
  destruct (Block.forward blk (EViT.x st)) as [[[[x' n] idx] compl]|] eqn:Hfwd;
    cbn [mbind result_bind]; [|done].
  intros Hstep. apply cache_step_Ok_nonempty in Hstep; [done|].
  cbn [EViT.x]. by eapply forward_Ok_nonempty.
Qed.

Lemma stages_cls_count m blks : ∀ i st sts cls_list,
  Forall block_shaped blks → EViT.x st ≠ [] →
  EViT.stages m i blks st = Ok sts →
  ∃ cls_list',
    stages_cls m i blks st cls_list = Ok cls_list' ∧
    length cls_list'
    = length cls_list
      + length (filter (λ j, j ∈ EViT.reduction_loc m
                             ∨ j = Z.of_nat (length (EViT.blocks m)) - 1)%Z
                  (seqZ i (Z.of_nat (length blks)))).
Proof.
  induction blks as [|blk blks IH]; intros i st sts cls_list Hshape Hx Hsts.
  - eexists. split; [done|]. simpl. lia.
  - apply Forall_cons in Hshape as [Hblk Hshape].
    cbn [EViT.stages stages_cls] in *.
    destruct (EViT.stage m i blk st) as [st'|] eqn:Hstage; [|done].
    cbn [mbind result_bind] in *.
    destruct (EViT.stages m (i + 1) blks st') as [rest|] eqn:Hrest; [|done].
    pose proof (stage_Ok_nonempty m i blk st st' Hblk Hx Hstage) as Hx'.
    rewrite seqZ_cons by (cbn [length]; lia).
    replace (Z.pred (Z.of_nat (length (blk :: blks)))) with (Z.of_nat (length blks))
      by (cbn [length]; lia).
    replace (Z.succ i) with (i + 1)%Z by lia.
    rewrite filter_cons. unfold collect_cls.
    destruct (EViT.x st') as [|cls x'] eqn:Hxst'; [done|].
    destruct (decide (i ∈ EViT.reduction_loc m
                      ∨ i = Z.of_nat (length (EViT.blocks m)) - 1)%Z) as [Hi|Hi].
    + replace (bool_decide (i ∈ EViT.reduction_loc m)
               || bool_decide (i = Z.of_nat (length (EViT.blocks m)) - 1)%Z)
        with true.
      2:{ symmetry. apply orb_true_iff.
          destruct Hi; [left|right]; by apply bool_decide_eq_true_2. }
      cbn [lookup list_lookup mbind result_bind].
      destruct (IH (i + 1)%Z st' rest (cls_list ++ [cls]) Hshape) as (l & -> & Hl);
        [by rewrite Hxst'|done|].
      eexists. split; [done|]. rewrite Hl, length_app. simpl. lia.
    + replace (bool_decide (i ∈ EViT.reduction_loc m)
               || bool_decide (i = Z.of_nat (length (EViT.blocks m)) - 1)%Z)
        with false.
      2:{ symmetry. apply orb_false_iff.
          split; apply bool_decide_eq_false_2; tauto. }
      cbn [mbind result_bind].
      destruct (IH (i + 1)%Z st' rest cls_list Hshape) as (l & -> & Hl);
        [by rewrite Hxst'|done|].
      eexists. split; [done|]. by rewrite Hl.
Qed.
End ClassTokenCount.

(** X10.  With the feature-fusion head and blocks whose sublayers keep the
    shape of their input, a run of [forward] that completes its stages
    collects at most [len(reduction_loc) + 1] class tokens, the number that
    [reset_classifier] builds the head for, and exactly that many if and
    only if the reduction locations are distinct and all lie in
    [0, depth - 1): a location given as a negative index, a repeated
    location, or the last block as a location each leave the stack
    shorter than the head expects. *)
Theorem ifa_class_token_count
    (R : Type) `{Scalar R} `{TensorLibrary} (m : EViT.t R) (x : list (list R))
    (sts : list (EViT.state R)) :
  Forall block_shaped (EViT.blocks m) →
  EViT.blocks m ≠ [] →
  x ≠ [] →
  EViT.forward_stages m x = Ok sts →
  ∃ cls_list,
    forward_cls_list m x = Ok cls_list ∧
    length cls_list ≤ inter_feats m ∧
    (length cls_list = inter_feats m
     ↔ NoDup (EViT.reduction_loc m)
       ∧ Forall (λ loc, 0 ≤ loc < Z.of_nat (length (EViT.blocks m)) - 1)%Z
           (EViT.reduction_loc m)).
Proof.
  intros Hshape Hblocks Hx Hsts. unfold forward_cls_list, inter_feats.
  destruct (stages_cls_count m (EViT.blocks m) 0%Z (EViT.initial_state m x) sts []
              Hshape Hx Hsts) as (cls_list & Hcls & Hlen).
  exists cls_list. split; [done|]. rewrite Hlen. cbn [length]. rewrite Nat.add_0_l.
  apply collected_count. destruct (EViT.blocks m); [done|]. cbn [length]. lia.
Qed.

(** Reduction at stages 3, 6 and 9 of 12: four class tokens, as the head
    expects. *)
Lemma ifa_class_token_count_witness :
  ∃ m cls_list,
    EViT.__init__ 12 uniform_sublayers trajectory_args = Ok m ∧
    forward_cls_list m (replicate 197 [0%Z]) = Ok cls_list ∧
    length cls_list ≤ inter_feats m ∧
    (length cls_list = inter_feats m
     ↔ NoDup (EViT.reduction_loc m)
       ∧ Forall (λ loc, 0 ≤ loc < Z.of_nat (length (EViT.blocks m)) - 1)%Z
           (EViT.reduction_loc m)).
Proof.
  assert (Hinit : ∃ (m : EViT.t Z) sts,
    EViT.__init__ 12 uniform_sublayers trajectory_args = Ok m ∧
    Forall block_shaped (EViT.blocks m) ∧
    EViT.blocks m ≠ [] ∧
    EViT.forward_stages m (replicate 197 [0%Z]) = Ok sts).
  { eexists _, _. split; [vm_compute; reflexivity|]. split_and!.
    - repeat (constructor; [exact (uniform_branches_shaped 0)|]). constructor.
    - discriminate.
    - vm_compute. reflexivity. }
  destruct Hinit as (m & sts & Hm & Hshape & Hblocks & Hsts).
  destruct (ifa_class_token_count Z m (replicate 197 [0%Z]) sts Hshape Hblocks)
    as (cls_list & Hcls); [discriminate|done|].
  by exists m, cls_list.
Defined.

(** The last block as a reduction location: [forward] stacks two class
    tokens for a head built for three. *)
Example ifa_last_block_location :
  ∃ m cls_list,
    EViT.__init__ 12 uniform_sublayers
      (EViT.mk_args [0x1.ccccccccccccdp-1%float] [3; 11]%Z false false false false false 0)
    = Ok m ∧
    forward_cls_list m (replicate 197 [0%Z]) = Ok cls_list ∧
    length cls_list = 2 ∧ inter_feats m = 3.
Proof.
  eexists _, _. split; [vm_compute; reflexivity|].
  split; [vm_compute; reflexivity|]. split; reflexivity.
Qed.

(** * The classifier *)

Section ClassifierFacts.
Context {R : Type} `{Scalar R}.
Implicit Types (c : Classifier.t R) (x : list (list R)).

Lemma reset_classifier_explicit c n gp :
  Classifier.ifa_head c = false →
  Classifier.reset_classifier c n (Some gp)
  = if bool_decide (gp ∈ [EmptyString; "avg"; "token"; "map"]%string) then
      if bool_decide (gp = "map"%string ∧ Classifier.attn_pool c = None)
      then Raise AssertionError
      else Ok (Classifier.mk n gp None (Classifier.num_prefix_tokens c) false)
    else Raise AssertionError.
Proof.
  intros Hifa. unfold Classifier.reset_classifier. rewrite Hifa.
  destruct (bool_decide (gp ∈ _)) eqn:Hgp; cbn [py_assert mbind result_bind]; [|done].
  assert (Hne : gp ≠ "map "%string).
  { intros ->. vm_compute in Hgp. discriminate. }
  rewrite (bool_decide_eq_true_2 _ Hne).
  destruct (Classifier.attn_pool c) as [attention|] eqn:Hpool.
  - rewrite (bool_decide_eq_true_2 (is_Some _)) by done.
    rewrite andb_false_r. cbn [andb].
    by rewrite bool_decide_eq_false_2 by (by intros [_ ?]).
  - rewrite (bool_decide_eq_false_2 (is_Some _)) by (by intros [? ?]).
    cbn [negb]. rewrite andb_true_r.
    destruct (decide (gp = "map"%string)) as [->|Hmap].
    + by rewrite !bool_decide_eq_true_2.
    + rewrite (bool_decide_eq_false_2 _ Hmap).
      by rewrite bool_decide_eq_false_2 by (by intros [? _]).
Qed.
End ClassifierFacts.

(** X11.  Without the feature-fusion head, [reset_classifier] called with
    a [global_pool] raises an [AssertionError] exactly when the name is not
    one of [''], ['avg'], ['token'], ['map'], or is ['map'] on a model
    without attention pooling; whenever it returns, the model has no
    attention pooling any more, whatever it had and whatever was asked
    for, since no accepted name equals ['map '] of line 501. *)
Theorem reset_classifier_drops_attention_pool
    (R : Type) `{Scalar R} (c : Classifier.t R) (n : Z) (gp : string) :
  Classifier.ifa_head c = false →
  (Classifier.reset_classifier c n (Some gp) = Raise AssertionError
   ↔ gp ∉ [EmptyString; "avg"; "token"; "map"]%string
     ∨ (gp = "map"%string ∧ Classifier.attn_pool c = None))
  ∧
  (∀ c', Classifier.reset_classifier c n (Some gp) = Ok c' →
     Classifier.attn_pool c' = None
     ∧ Classifier.global_pool c' = gp
     ∧ Classifier.num_classes c' = n)
  ∧
  (∀ e, Classifier.reset_classifier c n (Some gp) = Raise e → e = AssertionError).
Proof.
  intros Hifa. rewrite reset_classifier_explicit by done.
  destruct (decide (gp ∈ [EmptyString; "avg"; "token"; "map"]%string)) as [Hgp|Hgp].
  - rewrite (bool_decide_eq_true_2 _ Hgp).
    destruct (decide (gp = "map"%string ∧ Classifier.attn_pool c = None)) as [Hmap|Hmap].
    + rewrite (bool_decide_eq_true_2 _ Hmap). split_and!; [|done|by intros e [= <-]].
      split; [by right|done].
    + rewrite (bool_decide_eq_false_2 _ Hmap). split_and!; [|by intros c' [= <-]|done].
      split; [done|]. by intros [?|?].
  - rewrite (bool_decide_eq_false_2 _ Hgp). split_and!; [|done|by intros e [= <-]].
    split; [by left|done].
Qed.

Lemma reset_classifier_drops_attention_pool_witness :
  let c : Classifier.t Z :=
    Classifier.mk 1000 "map" (Some (λ x, concat x)) 1 false in
  (Classifier.reset_classifier c 10 (Some "avg"%string) = Raise AssertionError
   ↔ "avg"%string ∉ [EmptyString; "avg"; "token"; "map"]%string
     ∨ ("avg"%string = "map"%string ∧ Classifier.attn_pool c = None))
  ∧
  (∀ c', Classifier.reset_classifier c 10 (Some "avg"%string) = Ok c' →
     Classifier.attn_pool c' = None
     ∧ Classifier.global_pool c' = "avg"%string
     ∧ Classifier.num_classes c' = 10%Z)
  ∧
  (∀ e, Classifier.reset_classifier c 10 (Some "avg"%string) = Raise e →
     e = AssertionError).
Proof.
  intros c. apply (reset_classifier_drops_attention_pool Z c 10 "avg"). reflexivity.
Defined.

(** X12.  On a model that pools with attention, [reset_classifier] with
    [global_pool = 'map'], the pooling the model already has, returns and
    changes what [forward] computes: before the call the pooled vector is
    the output of the attention pooling, after it the class token
    [x[:, 0]]. *)
Theorem reset_classifier_map_pools_class_token
    (R : Type) `{Scalar R} (c : Classifier.t R) (n : Z)
    (attention : list (list R) → list R) :
  Classifier.ifa_head c = false →
  Classifier.attn_pool c = Some attention →
  ∃ c',
    Classifier.reset_classifier c n (Some "map"%string) = Ok c' ∧
    ∀ x cls, x !! 0 = Some cls →
      Classifier.pool c x = Ok (Classifier.Vector (attention x)) ∧
      Classifier.pool c' x = Ok (Classifier.Vector cls).
Proof.
  intros Hifa Hpool. rewrite reset_classifier_explicit by done.
  rewrite bool_decide_eq_true_2 by (repeat constructor).
  rewrite bool_decide_eq_false_2 by (rewrite Hpool; by intros [_ ?]).
  eexists. split; [done|]. intros x cls Hcls.
  unfold Classifier.pool. rewrite Hpool. split; [done|].
  cbn [Classifier.attn_pool Classifier.global_pool].
  rewrite bool_decide_eq_false_2 by done.
  rewrite bool_decide_eq_true_2 by done. by rewrite Hcls.
Qed.

Lemma reset_classifier_map_pools_class_token_witness :
  let c : Classifier.t Z :=
    Classifier.mk 1000 "map" (Some (λ x, concat x)) 1 false in
  ∃ c',
    Classifier.reset_classifier c 10 (Some "map"%string) = Ok c' ∧
    ∀ x cls, x !! 0 = Some cls →
      Classifier.pool c x = Ok (Classifier.Vector (concat x)) ∧
      Classifier.pool c' x = Ok (Classifier.Vector cls).
Proof.
  intros c. apply (reset_classifier_map_pools_class_token Z c 10 (λ x, concat x));
    reflexivity.
Defined.

(** * What [Block.forward] returns *)

(** X13.  What a reducing stage returns besides the sequence.  For a block
    whose sublayers keep the shape of their input, with keep rate below 1
    and [1 <= left < N - 1], [Block.forward] returns; the token count it
    reports is [left + 1], the kept tokens and the fused token, one less
    than the length of the new sequence; the index it reports has [left + 1]
    entries, the kept positions followed by a final [-1] for the fused
    token; and the complement has the remaining [N - 1 - left]
    positions. *)
Theorem forward_reports_at_reducing_stage
    (R : Type) `{Scalar R} (blk : Block.t R) (x : list (list R)) (left : nat) :
  block_shaped blk →
  (Block.keep_rate blk <? 1)%float = true →
  left_tokens (Block.keep_rate blk) (Z.of_nat (length x)) = Ok (Z.of_nat left) →
  1 ≤ left < length x - 1 →
  ∃ x' kept idx compl,
    Block.forward blk x = Ok (x', (Z.of_nat left + 1)%Z, Some idx, Some compl) ∧
    length x' = left + 2 ∧
    idx = (Z.of_nat <$> kept) ++ [(-1)%Z] ∧
    length kept = left ∧
    length compl = length x - 1 - left ∧
    kept ++ compl ≡ₚ seq 0 (length x - 1).
Proof.
  intros Hshape Hk Hleft Hrange. rewrite forward_unfold. cbv zeta.
  destruct (Hshape x) as (Htmp & Hattn & _). simpl in Htmp, Hattn.
  set (y := tadd x (Block.attn_branch blk x).1).
  assert (Hy : length y = length x) by by apply tadd_length.
  destruct (reduce_fires (Block.keep_rate blk) (length x) (channels x) y
              (Block.attn_branch blk x).2 left)
    as (scores & x_others & non_topk & non_topk_attn & _ & Hsl & Hf1 & _ & _ & Hred);
    [done..|].
  cbv zeta in Hred. rewrite Hred. cbn [mbind result_bind].
  set (z := take 1 y ++ x_others ++ _).
  destruct (Hshape z) as (_ & _ & Hmlp). simpl in Hmlp.
  assert (Hkept : length (take left (ranking scores)) = left).
  { rewrite length_take, ranking_length. lia. }
  assert (Hz : length (tadd z (Block.mlp_branch blk z)) = left + 2).
  { rewrite tadd_length by done. subst z.
    apply Forall2_length in Hf1. rewrite Hkept in Hf1.
    rewrite !length_app, length_take, Hy, <- Hf1. cbn [length]. lia. }
  pose proof (topk_NoDup scores left) as Hnd.
  pose proof (topk_range scores left) as Hin. rewrite Hsl in Hin.
  exists (tadd z (Block.mlp_branch blk z)), (take left (ranking scores)),
    (Block.selection_trace (take left (ranking scores))),
    (ascending_complement (take left (ranking scores)) (length x - 1)).
  split_and!.
  - rewrite Hz. do 4 f_equal. lia.
  - done.
  - done.
  - done.
  - pose proof (ascending_complement_length _ _ Hnd Hin). lia.
  - apply NoDup_Permutation.
    + apply NoDup_app. split_and!; [done| |apply ascending_complement_NoDup].
      intros j Hj [_ Hnj]%elem_of_ascending_complement. done.
    + apply NoDup_seq.
    + intros j. rewrite elem_of_app, elem_of_ascending_complement, elem_of_seq.
      rewrite Forall_forall in Hin. split.
      * intros [Hj|[Hj _]]; [apply Hin in Hj|]; lia.
      * intros Hj. destruct (decide (j ∈ take left (ranking scores))); [by left|].
        right. split; [lia|done].
Qed.

(** Six tokens at keep rate one half: three kept, two fused. *)
Lemma forward_reports_at_reducing_stage_witness :
  let blk : Block.t Z :=
    Block.mk 0x1p-1%float (uniform_sublayers 0).1 (uniform_sublayers 0).2 in
  let x := [[100]; [1]; [2]; [3]; [4]; [5]]%Z in
  ∃ x' kept idx compl,
    Block.forward blk x = Ok (x', (Z.of_nat 3 + 1)%Z, Some idx, Some compl) ∧
    length x' = 3 + 2 ∧
    idx = (Z.of_nat <$> kept) ++ [(-1)%Z] ∧
    length kept = 3 ∧
    length compl = length x - 1 - 3 ∧
    kept ++ compl ≡ₚ seq 0 (length x - 1).
Proof.
  intros blk x. apply (forward_reports_at_reducing_stage Z blk x 3).
  - exact (uniform_branches_shaped 0).
  - reflexivity.
  - reflexivity.
  - simpl. lia.
Defined.

(** * Reduction locations given as negative indices *)

Section NegativeLocations.
Context {R : Type} `{Scalar R} `{TensorLibrary}.
Implicit Types (m : EViT.t R) (st : EViT.state R) (i : Z).

Lemma cache_step_negative_layers m i st :
  Forall (λ loc, loc < 0)%Z (EViT.recovery_layers m) →
  EViT.recovery_layers m ≠ [] →
  (0 ≤ i)%Z →
  EViT.cache_step m i st = Ok st.
Proof.
  intros Hneg Hne Hi. unfold EViT.cache_step.
  rewrite recover_not_listed.
  2:{ intros Hin. rewrite Forall_forall in Hneg. apply Hneg in Hin. lia. }
  cbn [mbind result_bind]. unfold EViT.accumulate.
  destruct (EViT.clc m); [|done].
  destruct (last (EViT.recovery_layers m)) as [final|] eqn:Hlast.
  - assert (final < 0)%Z as Hfinal.
    { rewrite Forall_forall in Hneg. apply Hneg.
      apply last_Some in Hlast as [l' ->]. apply elem_of_app. right.
      apply list_elem_of_here. }
    by replace (i <? final)%Z with false by (symmetry; apply Z.ltb_ge; lia).
  - by apply last_None in Hlast.
Qed.

Lemma stages_negative_layers m blks : ∀ i st,
  Forall (λ loc, loc < 0)%Z (EViT.recovery_layers m) →
  EViT.recovery_layers m ≠ [] →
  (0 ≤ i)%Z →
  EViT.stages m i blks st = EViT.stages (cache_disabled m) i blks st.
Proof.
  induction blks as [|blk blks IH]; intros i st Hneg Hne Hi; [done|].
  cbn [EViT.stages]. unfold EViT.stage.
  destruct (Block.forward blk (EViT.x st)) as [[[[x' n] idx] compl]|];
    cbn [mbind result_bind]; [|done].
  rewrite cache_step_negative_layers by done.
  rewrite (cache_step_disabled (cache_disabled m)) by done.
  cbn [mbind result_bind]. by rewrite IH by (done || lia).
Qed.
End NegativeLocations.

(** X14.  A model whose recovery layers are all negative indices runs its
    stages exactly as the same model with the cache switched off: the
    constructor accepts a negative reduction location and reduces at the
    block it denotes, but the stage index of [forward] never equals it and
    is never below it, so nothing is ever buffered or recovered. *)
Theorem negative_locations_disable_cache
    (R : Type) `{Scalar R} `{TensorLibrary} (m : EViT.t R) (x : list (list R)) :
  Forall (λ loc, loc < 0)%Z (EViT.recovery_layers m) →
  EViT.recovery_layers m ≠ [] →
  EViT.forward_stages m x = EViT.forward_stages (cache_disabled m) x.
Proof.
  intros Hneg Hne. unfold EViT.forward_stages.
  by apply stages_negative_layers.
Qed.

(** Four blocks, the cache switched on, reduction at block [-2]. *)
Lemma negative_locations_disable_cache_witness :
  ∃ m sts,
    EViT.__init__ 4 uniform_sublayers
      (EViT.mk_args [0x1p-1]%float [-2]%Z true true false false false 0) = Ok m ∧
    EViT.clc m = true ∧
    EViT.forward_stages (cache_disabled m) (replicate 6 [0%Z]) = Ok sts ∧
    EViT.forward_stages m (replicate 6 [0%Z])
    = EViT.forward_stages (cache_disabled m) (replicate 6 [0%Z]).
Proof.
  eexists _, _. split; [vm_compute; reflexivity|]. split; [reflexivity|].
  split; [vm_compute; reflexivity|].
  apply (negative_locations_disable_cache Z).
  - repeat constructor.
  - discriminate.
Defined.
